(** * useTriviaData: the trivia acquisition hook, embedded and verified

    This development embeds [src/App/src/useTriviaData.tsx] in Rocq:
    the entity decoder [decodeHtml], the timer [wait] and the effect body
    [fetchData] of the hook [useTriviaData], with the React state
    ([questions], [loading], [error]), the session storage and the abort
    signal as explicit state.  The statements at the end of the file
    relate the natural-language specification of the pipeline to this
    embedding. *)

From Stdlib Require Import Ascii String.
From stdpp Require Import gmap strings list pretty sorting.

Open Scope Z_scope.

(* ===================================================================== *)
(** ** Data model *)
(* ===================================================================== *)

Inductive QuestionDifficulty := easy | medium | hard.

(** [interface ApiResult]: the raw question object received from the API. *)
Record ApiResult := {
  category : string;
  type : string;
  difficulty : QuestionDifficulty;
  question : string;
  correct_answer : string;
  incorrect_answers : list string
}.

(** [interface ApiResponse]. *)
Record ApiResponse := {
  response_code : Z;
  results : list ApiResult
}.

(** [export type Question = ApiResult]. *)
Abbreviation Question := ApiResult (only parsing).

(** The three [useState] cells of the hook, as the consumer observes them.
    They belong to the component, not to a run of the effect: a run that
    follows a change of [totalAmount] starts from what the runs before it
    published. *)
Record Snapshot := {
  questions : list Question;
  loading : bool;
  error : option string
}.

(** [useState([])], [useState(true)], [useState(null)]. *)
Definition initialSnapshot : Snapshot :=
  {| questions := []; loading := true; error := None |}.

(** A thrown JavaScript value.  The handler of [fetchData] looks at three
    things only: whether the value is an [Error] instance, its [name] and
    its [message]. *)
Inductive JsThrown :=
  | ErrorObject (name message : string)
  | OtherValue.

(** [new Error(message)]: the constructor's argument is the message, the
    name of the object is ["Error"]. *)
Definition new_Error (message : string) : JsThrown :=
  ErrorObject "Error" message.

(** The [DOMException] with which [fetch] and body readers reject when
    their signal is aborted.  [DOMException] objects are [Error]
    instances; the message text is the platform's. *)
Definition AbortError : JsThrown :=
  ErrorObject "AbortError" "The operation was aborted.".

(** The [DOMException] of [sessionStorage.setItem] on a full store. *)
Definition QuotaExceededError : JsThrown :=
  ErrorObject "QuotaExceededError" "The quota has been exceeded.".

(** The [TypeError] with which [fetch] rejects on a network failure, and
    the [SyntaxError] with which [response.json()] rejects on a body that
    is not JSON. *)
Definition TypeError (message : string) : JsThrown :=
  ErrorObject "TypeError" message.

Definition SyntaxError (message : string) : JsThrown :=
  ErrorObject "SyntaxError" message.

(** What the question source does with one request: the transport fails
    ([fetch] rejects), or a response with a status arrives whose body
    either cannot be read as JSON or is an [ApiResponse]. *)
Inductive Body :=
  | BodyMalformed (message : string)
  | BodyJson (data : ApiResponse).

Record Response := {
  status : Z;
  body : Body
}.

Inductive Exchange :=
  | NetworkFailure (message : string)
  | Responds (r : Response).

(** [response.ok]: the status is in the range 200-299. *)
Definition ok (r : Response) : bool :=
  (200 <=? status r) && (status r <=? 299).

(** A text held by [sessionStorage], represented by what [JSON.parse]
    makes of it, which is all the hook ever does with a stored text:
    the empty text, a non-empty text that is not JSON, the text [null],
    the serialization of a sequence of questions, and [JsonOther] for the
    texts that parse to a value without a positive [length] (a number, a
    boolean, a plain object). *)
Inductive StoredText :=
  | EmptyText
  | Unparseable (raw : string)
  | JsonNull
  | JsonArray (qs : list Question)
  | JsonOther (raw : string).

(** Observable effects of a run, in program order. *)
Inductive Event :=
  | EvFetch (amount : Z)            (* a request put on the network *)
  | EvDelay (ms : Z)                (* a timer that ran for [ms] milliseconds *)
  | EvRemoveItem (key : string)
  | EvSetItem (key : string)
  | EvSetQuestions (qs : list Question)
  | EvSetLoading (b : bool)
  | EvSetError (e : option string).

(** The state a run works on.  [clock] counts the points at which the
    abort signal can change.  Even values are the synchronous sections of
    [fetchData], odd values the suspensions ([await]) between them: an
    abort at an odd value lands while the awaited operation is pending, an
    abort at an even value after the operation has settled and before the
    code that follows it runs.  Iteration [i] of the loop starts at
    [6 * i]: request in flight at [6 * i + 1], body in flight at
    [6 * i + 3], batch processed at [6 * i + 4], delay at [6 * i + 5]. *)
Record World := {
  snap : Snapshot;
  sessionStorage : gmap string StoredText;
  clock : nat;
  trace : list Event
}.

(** The surroundings of one run (one [AbortController], one sequence of
    exchanges with the source).  [transport i] is the source's answer to
    the request of loop index [i]; [cancelAt] is the clock value at which
    [controller.abort()] lands, if it ever does; [quotaExceeded] tells
    whether the store refuses writes. *)
Record Env := {
  transport : nat -> Exchange;
  cancelAt : option nat;
  quotaExceeded : bool
}.

(* ===================================================================== *)
(** ** The platform's HTML parser *)
(* ===================================================================== *)

(** [decodeHtml] hands its input to [DOMParser] and reads the
    [textContent] of the document.  The pipeline is stated over an
    arbitrary parser, a function from the markup to [Some] text content or
    [None] when the parser throws.  [Dom.textContent] is a small concrete
    parser for the examples: character data, tags and the character
    references [&amp;] [&lt;] [&gt;] [&quot;] [&apos;] [&#39;] [&#039;]. *)
Module Dom.

Definition quote : ascii := ascii_of_nat 34.

Definition refs : list (string * ascii) :=
  [ ("amp;"%string, "&"%char); ("lt;"%string, "<"%char);
    ("gt;"%string, ">"%char); ("quot;"%string, quote);
    ("apos;"%string, "'"%char); ("#39;"%string, "'"%char);
    ("#039;"%string, "'"%char) ].

Fixpoint starts_with (p s : string) : bool :=
  match p, s with
  | EmptyString, _ => true
  | String a p', String b s' => if Ascii.eqb a b then starts_with p' s' else false
  | String _ _, EmptyString => false
  end.

(** The reference that starts [s] (the text after an ampersand), with
    the number of characters it spans. *)
Fixpoint reference (table : list (string * ascii)) (s : string) : option (ascii * nat) :=
  match table with
  | [] => None
  | (txt, c) :: table' =>
      if starts_with txt s then Some (c, String.length txt) else reference table' s
  end.

Definition is_letter (c : ascii) : bool :=
  let n := nat_of_ascii c in
  ((65 <=? n) && (n <=? 90) || (97 <=? n) && (n <=? 122))%nat.

(** A [<] opens a tag when a letter or [/] follows. *)
Definition opens_tag (rest : string) : bool :=
  match rest with
  | String c _ => is_letter c || Ascii.eqb c "/"
  | EmptyString => false
  end.

(** [skip] characters of a reference still to drop; [inTag] between the
    [<] and the [>] of a tag. *)
Fixpoint scan (skip : nat) (inTag : bool) (s : string) : string :=
  match s with
  | EmptyString => EmptyString
  | String c rest =>
      match skip with
      | S skip' => scan skip' inTag rest
      | O =>
          if inTag then scan O (negb (Ascii.eqb c ">")) rest
          else if Ascii.eqb c "<" && opens_tag rest then scan O true rest
          else if Ascii.eqb c "&" then
            match reference refs rest with
            | Some (d, n) => String d (scan n false rest)
            | None => String c (scan O false rest)
            end
          else String c (scan O false rest)
      end
  end.

Definition textContent (html : string) : option string :=
  Some (scan O false html).

(** Whether the character [c] occurs in [s]; a text without an ampersand
    holds no character reference. *)
Fixpoint occurs (c : ascii) (s : string) : bool :=
  match s with
  | EmptyString => false
  | String d rest => Ascii.eqb c d || occurs c rest
  end.

End Dom.

(* ===================================================================== *)
(** ** decodeHtml *)
(* ===================================================================== *)

Section Decoder.

Variable parseFromString : string -> option string.

(** [try { return doc.documentElement.textContent || html }
     catch (e) { return html }]: an empty text content is falsy, so the
    input is returned for it as well. *)
Definition decodeHtml (html : string) : string :=
  match parseFromString html with
  | Some textContent => if String.eqb textContent EmptyString then html else textContent
  | None => html
  end.

(** The object literal of the [map] callback: [...q] with [category],
    [question], [correct_answer] and [incorrect_answers] overwritten. *)
Definition decodeQuestion (q : ApiResult) : Question :=
  {| category := decodeHtml (category q);
     type := type q;
     difficulty := difficulty q;
     question := decodeHtml (question q);
     correct_answer := decodeHtml (correct_answer q);
     incorrect_answers := map decodeHtml (incorrect_answers q) |}.

End Decoder.

(* ===================================================================== *)
(** ** Effects: state, exceptions, suspension *)
(* ===================================================================== *)

Inductive Completion (A : Type) :=
  | Normal (a : A)
  | Throw (e : JsThrown).
Arguments Normal {A} a.
Arguments Throw {A} e.

Definition Js (A : Type) : Type := World -> Completion A * World.

Definition ret {A} (a : A) : Js A := fun w => (Normal a, w).

Definition throw {A} (e : JsThrown) : Js A := fun w => (Throw e, w).

Definition bind {A B} (m : Js A) (k : A -> Js B) : Js B :=
  fun w =>
    match m w with
    | (Normal a, w') => k a w'
    | (Throw e, w') => (Throw e, w')
    end.

(** [try { body } catch (e) { handler }]. *)
Definition tryCatch {A} (body : Js A) (handler : JsThrown -> Js A) : Js A :=
  fun w =>
    match body w with
    | (Normal a, w') => (Normal a, w')
    | (Throw e, w') => handler e w'
    end.

(** [try { body } finally { final }]. *)
Definition tryFinally {A} (body : Js A) (final : Js unit) : Js A :=
  fun w =>
    match body w with
    | (r, w') =>
        match final w' with
        | (Normal _, w'') => (r, w'')
        | (Throw e, w'') => (Throw e, w'')
        end
    end.

Declare Scope js_scope.
Delimit Scope js_scope with js.
Notation "'let!' x ':=' m 'in' k" := (bind m (fun x => k))
  (at level 20, x name, m at level 100, k at level 200) : js_scope.
Notation "m ';;' k" := (bind m (fun _ => k))
  (at level 100, k at level 200, right associativity) : js_scope.
Open Scope js_scope.

Definition emit (ev : Event) (w : World) : World :=
  {| snap := snap w; sessionStorage := sessionStorage w;
     clock := clock w; trace := trace w ++ [ev] |}.

(** One [await]: the suspension takes the next clock value, the
    continuation runs at the one after. *)
Definition resume (w : World) : World :=
  {| snap := snap w; sessionStorage := sessionStorage w;
     clock := S (S (clock w)); trace := trace w |}.

Definition publish (s : Snapshot) (w : World) : World :=
  {| snap := s; sessionStorage := sessionStorage w;
     clock := clock w; trace := trace w |}.

Definition store (st : gmap string StoredText) (w : World) : World :=
  {| snap := snap w; sessionStorage := st;
     clock := clock w; trace := trace w |}.

Definition setQuestions (qs : list Question) : Js unit :=
  fun w =>
    (Normal tt,
     emit (EvSetQuestions qs)
       (publish {| questions := qs; loading := loading (snap w);
                   error := error (snap w) |} w)).

Definition setLoading (b : bool) : Js unit :=
  fun w =>
    (Normal tt,
     emit (EvSetLoading b)
       (publish {| questions := questions (snap w); loading := b;
                   error := error (snap w) |} w)).

Definition setError (e : option string) : Js unit :=
  fun w =>
    (Normal tt,
     emit (EvSetError e)
       (publish {| questions := questions (snap w);
                   loading := loading (snap w); error := e |} w)).

(** [sessionStorage.getItem]: [null] when the key is absent. *)
Definition getItem (key : string) : Js (option StoredText) :=
  fun w => (Normal (sessionStorage w !! key), w).

Definition removeItem (key : string) : Js unit :=
  fun w => (Normal tt, emit (EvRemoveItem key) (store (delete key (sessionStorage w)) w)).

(** A string is truthy unless it is empty. *)
Definition truthy (t : StoredText) : bool :=
  match t with EmptyText => false | _ => true end.

Inductive Parsed :=
  | PNull
  | PArray (qs : list Question)
  | POther.

Definition JSON_parse (t : StoredText) : Js Parsed :=
  match t with
  | EmptyText => throw (SyntaxError "Unexpected end of JSON input")
  | Unparseable _ => throw (SyntaxError "Unexpected token in JSON")
  | JsonNull => ret PNull
  | JsonArray qs => ret (PArray qs)
  | JsonOther _ => ret POther
  end.

Definition JSON_stringify (qs : list Question) : StoredText := JsonArray qs.

(** [parsedData.length > 0]: reading a property of [null] throws;
    [undefined > 0] is false. *)
Definition length_positive (p : Parsed) : Js bool :=
  match p with
  | PNull => throw (TypeError "Cannot read properties of null")
  | PArray qs => ret (0 <? Z.of_nat (length qs))
  | POther => ret false
  end.

(** The value [setQuestions(parsedData)] publishes. *)
Definition asQuestions (p : Parsed) : list Question :=
  match p with PArray qs => qs | _ => [] end.

Section Run.

Variable parseFromString : string -> option string.
Variable env : Env.

(** [signal.aborted] at clock value [c]. *)
Definition aborted_by (c : nat) : bool :=
  match cancelAt env with
  | Some a => (a <=? c)%nat
  | None => false
  end.

Definition signal_aborted : Js bool :=
  fun w => (Normal (aborted_by (clock w)), w).

(** [sessionStorage.setItem]. *)
Definition setItem (key : string) (value : StoredText) : Js unit :=
  fun w =>
    if quotaExceeded env then (Throw QuotaExceededError, w)
    else (Normal tt, emit (EvSetItem key) (store (<[key := value]> (sessionStorage w)) w)).

(** [await fetch(url, { signal })] for the request of loop index [i].
    Under a signal that is already aborted no request leaves; an abort
    that lands while the request is in flight rejects it. *)
Definition fetch (i : nat) (amount : Z) : Js Response :=
  fun w =>
    if aborted_by (clock w) then (Throw AbortError, resume w)
    else
      let w' := resume (emit (EvFetch amount) w) in
      if aborted_by (S (clock w)) then (Throw AbortError, w')
      else
        match transport env i with
        | NetworkFailure message => (Throw (TypeError message), w')
        | Responds r => (Normal r, w')
        end.

(** [await response.json()]: reading the body is aborted with the
    signal as well. *)
Definition json (r : Response) : Js ApiResponse :=
  fun w =>
    if aborted_by (S (clock w)) then (Throw AbortError, resume w)
    else
      match body r with
      | BodyMalformed message => (Throw (SyntaxError message), resume w)
      | BodyJson data => (Normal data, resume w)
      end.

(** [const wait = (ms) => new Promise(resolve => setTimeout(resolve, ms))]:
    the promise has no reject path and takes no signal. *)
Definition wait (ms : Z) : Js unit :=
  fun w => (Normal tt, resume (emit (EvDelay ms) w)).

Section FetchData.

Variable totalAmount : Z.

Definition CACHE_KEY : string := "triviaDataCache_" +:+ pretty totalAmount.

(** [Math.ceil(totalAmount / 50)], for an integer [totalAmount]: the
    ceiling of a quotient is minus the floor of its opposite. *)
Definition numRequests : Z := - ((- totalAmount) / 50).

(** [(i === numRequests - 1 && totalAmount % 50 !== 0)
      ? totalAmount % 50 : 50]; [%] truncates, as [Z.rem]. *)
Definition amountInThisRequest (i : nat) : Z :=
  if (Z.of_nat i =? numRequests - 1) && negb (Z.rem totalAmount 50 =? 0)
  then Z.rem totalAmount 50
  else 50.

(** Step 1 of [fetchData]; [true] when it returned from the cache. *)
Definition readCache : Js bool :=
  let! cachedData := getItem CACHE_KEY in
  match cachedData with
  | Some text =>
      if truthy text then
        tryCatch
          (let! parsedData := JSON_parse text in
           let! nonEmpty := length_positive parsedData in
           if nonEmpty then
             setQuestions (asQuestions parsedData) ;;
             setLoading false ;;
             ret true
           else ret false)
          (fun _ => removeItem CACHE_KEY ;; ret false)
      else ret false
  | None => ret false
  end.

(** The [for] loop: it visits [i = 0, ..., numRequests - 1];
    [remaining] is the number of indices still to visit. *)
Fixpoint requestLoop (remaining : nat) (i : nat)
    (allFetchedQuestions : list Question) : Js (list Question) :=
  match remaining with
  | O => ret allFetchedQuestions
  | S remaining' =>
      let! response := fetch i (amountInThisRequest i) in
      if negb (ok response) then
        throw (new_Error ("HTTP error! status: " +:+ pretty (status response)))
      else
        let! data := json response in
        if negb (response_code data =? 0) then
          throw (new_Error ("Trivia API Error Code: " +:+ pretty (response_code data)))
        else
          let decodedQuestions := map (decodeQuestion parseFromString) (results data) in
          let allFetchedQuestions' := allFetchedQuestions ++ decodedQuestions in
          (if Z.of_nat i <? numRequests - 1 then
             let! aborted := signal_aborted in
             if aborted then throw (new_Error "AbortError")
             else wait 5000
           else ret tt) ;;
          requestLoop remaining' (S i) allFetchedQuestions'
  end.

(** The body of the [try] block. *)
Definition tryBlock : Js unit :=
  let! allFetchedQuestions := requestLoop (Z.to_nat numRequests) O [] in
  setItem CACHE_KEY (JSON_stringify allFetchedQuestions) ;;
  setQuestions allFetchedQuestions.

Definition catchBlock (e : JsThrown) : Js unit :=
  match e with
  | ErrorObject name message =>
      if String.eqb name "AbortError" then ret tt
      else setError (Some message)
  | OtherValue => setError (Some "An unknown error occurred.")
  end.

Definition finallyBlock : Js unit :=
  let! aborted := signal_aborted in
  if negb aborted then setLoading false else ret tt.

(** Step 2 of [fetchData]: the network path. *)
Definition fetchFresh : Js unit :=
  setLoading true ;;
  setError None ;;
  tryFinally (tryCatch tryBlock catchBlock) finallyBlock.

Definition fetchData : Js unit :=
  let! returned := readCache in
  if returned then ret tt else fetchFresh.

End FetchData.

End Run.

(** One run of the effect of [useTriviaData]: a fresh controller, hence a
    fresh clock, over the hook's state and the session's storage. *)
Definition useEffect (parseFromString : string -> option string) (env : Env)
    (totalAmount : Z) (w : World) : World :=
  snd (fetchData parseFromString env totalAmount
         {| snap := snap w; sessionStorage := sessionStorage w;
            clock := O; trace := [] |}).

(** The first render: initial state, empty storage. *)
Definition mount : World :=
  {| snap := initialSnapshot; sessionStorage := ∅; clock := O; trace := [] |}.

(* ===================================================================== *)
(** ** Vocabulary of the statements *)
(* ===================================================================== *)

(** The batch plan: the amounts the loop asks for, in order. *)
Definition requestPlan (totalAmount : Z) : list Z :=
  map (amountInThisRequest totalAmount) (seq 0 (Z.to_nat (numRequests totalAmount))).

Definition sumZ (l : list Z) : Z := foldr Z.add 0 l.

(** The amounts of the requests a trace put on the network. *)
Definition requestsIssued (tr : list Event) : list Z :=
  omap (fun ev => match ev with EvFetch a => Some a | _ => None end) tr.

(** The milliseconds a trace spent in timers. *)
Definition delaysElapsed (tr : list Event) : list Z :=
  omap (fun ev => match ev with EvDelay ms => Some ms | _ => None end) tr.

Definition cacheWrites (tr : list Event) : list string :=
  omap (fun ev => match ev with EvSetItem k => Some k | _ => None end) tr.

(** The records the source sent for the request of index [i]. *)
Definition batchRecords (env : Env) (i : nat) : list ApiResult :=
  match transport env i with
  | Responds r =>
      match body r with
      | BodyJson data => results data
      | BodyMalformed _ => []
      end
  | NetworkFailure _ => []
  end.

(** The source answered request [i] with a success status, a readable
    body and response code 0. *)
Definition accepted (env : Env) (i : nat) : Prop :=
  exists r data,
    transport env i = Responds r /\ ok r = true /\
    body r = BodyJson data /\ response_code data = 0.

(** The source sent, for every request of the plan, as many records as
    were asked for. *)
Definition honoursAmounts (env : Env) (totalAmount : Z) : Prop :=
  forall i, (i < Z.to_nat (numRequests totalAmount))%nat ->
    Z.of_nat (length (batchRecords env i)) = amountInThisRequest totalAmount i.

(** The world in which the [try] block starts: after [setLoading(true)]
    and [setError(null)]. *)
Definition announced (w : World) : World :=
  snd ((setLoading true ;; setError None) w).

(** A run of the network path is successful when its [try] block runs to
    its end. *)
Definition succeeds (parseFromString : string -> option string) (env : Env)
    (totalAmount : Z) (w : World) : Prop :=
  fst (tryBlock parseFromString env totalAmount (announced w)) = Normal tt.

(** What the handler of [fetchData] publishes for a thrown value. *)
Definition isAbort (e : JsThrown) : bool :=
  match e with
  | ErrorObject name _ => String.eqb name "AbortError"
  | OtherValue => false
  end.

Definition reported (e : JsThrown) : string :=
  match e with
  | ErrorObject _ message => message
  | OtherValue => "An unknown error occurred."
  end.

(** Exactly one of three propositions. *)
Definition exactlyOne (P Q R : Prop) : Prop :=
  (P /\ ~ Q /\ ~ R) \/ (~ P /\ Q /\ ~ R) \/ (~ P /\ ~ Q /\ R).

Definition settled (s : Snapshot) : Prop :=
  exactlyOne (loading s = true) (error s <> None) (questions s <> []).

(** What one completed iteration of the loop leaves in the trace. *)
Definition batchEvents (totalAmount : Z) (j : nat) : list Event :=
  EvFetch (amountInThisRequest totalAmount j)
    :: (if Z.of_nat j <? numRequests totalAmount - 1 then [EvDelay 5000] else []).

(** [w] after [c] more clock values and the events [evs]. *)
Definition advance (c : nat) (evs : list Event) (w : World) : World :=
  {| snap := snap w; sessionStorage := sessionStorage w;
     clock := c + clock w; trace := trace w ++ evs |}.

(** The decoded records of the batches [i, ..., i + m - 1], in order. *)
Definition decodedBatches (parseFromString : string -> option string) (env : Env)
    (i m : nat) : list Question :=
  concat (map (fun j => map (decodeQuestion parseFromString) (batchRecords env j))
              (seq i m)).

(** The raw records of the whole plan, in arrival order. *)
Definition received (env : Env) (totalAmount : Z) : list ApiResult :=
  concat (map (batchRecords env) (seq 0 (Z.to_nat (numRequests totalAmount)))).

(** *** Sample data for the examples *)

Definition sampleQuestion : ApiResult :=
  {| category := "Science &amp; Nature";
     type := "A &amp; B";
     difficulty := easy;
     question := "What&#039;s heavier?";
     correct_answer := "&lt;lead&gt;";
     incorrect_answers := ["feathers"; "&quot;air&quot;"] |}.

Definition respondsWith (code : Z) (records : list ApiResult) : Exchange :=
  Responds {| status := 200;
              body := BodyJson {| response_code := code; results := records |} |}.

(** A source that sends as many records as the plan asks for. *)
Definition fullSource (totalAmount : Z) (i : nat) : Exchange :=
  respondsWith 0 (replicate (Z.to_nat (amountInThisRequest totalAmount i)) sampleQuestion).

(** A source that is one record short on every request. *)
Definition shortSource (totalAmount : Z) (i : nat) : Exchange :=
  respondsWith 0 (replicate (Z.to_nat (amountInThisRequest totalAmount i) - 1) sampleQuestion).

(** A source that rejects every request with response code 5. *)
Definition rejectingSource (i : nat) : Exchange := respondsWith 5 [].

(** A source without records: response code 0 and an empty list. *)
Definition emptySource (i : nat) : Exchange := respondsWith 0 [].

(** [source], except that request [k] is answered with status 503. *)
Definition unavailableAt (k : nat) (source : nat -> Exchange) (i : nat) : Exchange :=
  if Nat.eqb i k then Responds {| status := 503; body := BodyMalformed "Unexpected token" |}
  else source i.

Definition sampleQuestions : list Question :=
  [ {| category := "History"; type := "multiple"; difficulty := hard;
       question := "Q1"; correct_answer := "a"; incorrect_answers := ["b"] |};
    {| category := "Art"; type := "boolean"; difficulty := easy;
       question := "Q2"; correct_answer := "True"; incorrect_answers := ["False"] |};
    {| category := "History"; type := "multiple"; difficulty := easy;
       question := "Q3"; correct_answer := "c"; incorrect_answers := ["d"] |} ].

Definition quietEnv (source : nat -> Exchange) : Env :=
  {| transport := source; cancelAt := None; quotaExceeded := false |}.

Definition cancelledEnv (source : nat -> Exchange) (at_ : nat) : Env :=
  {| transport := source; cancelAt := Some at_; quotaExceeded := false |}.

Definition fullStoreEnv (source : nat -> Exchange) : Env :=
  {| transport := source; cancelAt := None; quotaExceeded := true |}.

(* ===================================================================== *)
(** ** The derived views *)
(* ===================================================================== *)

(** [new Set(xs)] read back with [Array.from]: the values in the order
    of their first insertion, each once. *)
Definition Set_add (seen : list string) (x : string) : list string :=
  if existsb (String.eqb x) seen then seen else seen ++ [x].

Definition Array_from_Set (xs : list string) : list string :=
  foldl Set_add [] xs.

(** [Array.prototype.sort()] without a comparator, on strings: ascending
    in the order of the code units, which [String.compare] is on the
    characters of the model. *)
Fixpoint sort_insert (x : string) (l : list string) : list string :=
  match l with
  | [] => [x]
  | y :: l' => if String.leb x y then x :: y :: l' else y :: sort_insert x l'
  end.

Fixpoint Array_sort (l : list string) : list string :=
  match l with
  | [] => []
  | x :: l' => sort_insert x (Array_sort l')
  end.

(** The [categories] memo of [useTriviaData]:
    [['All', ...Array.from(categorySet).sort()]]. *)
Definition categories (questions : list Question) : list string :=
  "All" :: Array_sort (Array_from_Set (map category questions)).

(** [a < b] on strings. *)
Definition before (a b : string) : Prop := String.compare a b = Lt.

(** The events of a trace that touch the network or the timer. *)
Definition networkActivity (tr : list Event) : list Event :=
  omap (fun ev => match ev with
                  | EvFetch _ | EvDelay _ => Some ev
                  | _ => None
                  end) tr.

(** The message with which the loop gives up on an exchange (lines 106 to
    119): the transport's or the body reader's own message, or the text
    the loop builds from the status or the response code; [None] for an
    exchange it accepts. *)
Definition refusal (x : Exchange) : option string :=
  match x with
  | NetworkFailure message => Some message
  | Responds r =>
      if negb (ok r) then Some ("HTTP error! status: " +:+ pretty (status r))
      else
        match body r with
        | BodyMalformed message => Some message
        | BodyJson data =>
            if negb (response_code data =? 0)
            then Some ("Trivia API Error Code: " +:+ pretty (response_code data))
            else None
        end
  end.

(** The component [App], as far as it computes on the hook's output. *)
Module App.

(** [interface ChartDataInput]. *)
Record ChartDataInput := {
  name : string;
  count : Z
}.

(** The [filteredQuestions] memo. *)
Definition filteredQuestions (questions : list Question) (selectedCategory : string)
    : list Question :=
  if String.eqb selectedCategory "All" then questions
  else List.filter (fun q => String.eqb (category q) selectedCategory) questions.

Definition difficulty_eqb (a b : QuestionDifficulty) : bool :=
  match a, b with
  | easy, easy | medium, medium | hard, hard => true
  | _, _ => false
  end.

(** [x || 0] on a number. *)
Definition or0 (x : Z) : Z := if x =? 0 then 0 else x.

(** The reducer of [difficultyDistribution]:
    [acc[q.difficulty] = (acc[q.difficulty] || 0) + 1], on a
    [Record<QuestionDifficulty, number>]. *)
Definition countDifficulty (acc : QuestionDifficulty -> Z) (q : Question)
    : QuestionDifficulty -> Z :=
  fun d => if difficulty_eqb d (difficulty q) then or0 (acc d) + 1 else acc d.

(** The [difficultyDistribution] memo. *)
Definition difficultyDistribution (filteredQuestions : list Question)
    : list ChartDataInput :=
  let counts := foldl countDifficulty (fun _ => 0) filteredQuestions in
  List.filter (fun d => 0 <? count d)
    [ {| name := "Easy"; count := counts easy |};
      {| name := "Medium"; count := counts medium |};
      {| name := "Hard"; count := counts hard |} ].

(** What [App] returns: the spinner while [loading], the alert for a
    truthy [error] (neither [null] nor the empty string), the dashboard
    otherwise. *)
Inductive View :=
  | Spinner
  | ErrorAlert (message : string)
  | Dashboard (questions : list Question) (categories : list string).

Definition render (s : Snapshot) : View :=
  if loading s then Spinner
  else
    match error s with
    | Some message =>
        if String.eqb message EmptyString
        then Dashboard (questions s) (categories (questions s))
        else ErrorAlert message
    | None => Dashboard (questions s) (categories (questions s))
    end.

End App.

(* ===================================================================== *)
(** ** Arithmetic of the batch plan *)
(* ===================================================================== *)

Lemma numRequests_bounds totalAmount :
  0 < totalAmount ->
  50 * (numRequests totalAmount - 1) < totalAmount <= 50 * numRequests totalAmount.
Proof.
  intros Hpos. unfold numRequests.
  Z.div_mod_to_equations. lia.
Qed.

Lemma numRequests_pos totalAmount :
  0 < totalAmount -> 1 <= numRequests totalAmount.
Proof. intros H. pose proof (numRequests_bounds totalAmount H). lia. Qed.

Lemma amount_inner totalAmount i :
  Z.of_nat i < numRequests totalAmount - 1 ->
  amountInThisRequest totalAmount i = 50.
Proof.
  intros Hi. unfold amountInThisRequest.
  destruct (Z.eqb_spec (Z.of_nat i) (numRequests totalAmount - 1)); [lia | done].
Qed.

Lemma amount_last totalAmount i :
  0 < totalAmount ->
  Z.of_nat i = numRequests totalAmount - 1 ->
  amountInThisRequest totalAmount i = totalAmount - 50 * (numRequests totalAmount - 1).
Proof.
  intros Hpos Hi. unfold amountInThisRequest.
  rewrite Hi, Z.eqb_refl. simpl.
  unfold numRequests.
  destruct (Z.eqb_spec (Z.rem totalAmount 50) 0) as [Hr | Hr]; simpl;
    Z.div_mod_to_equations; Z.quot_rem_to_equations; lia.
Qed.

Lemma amount_range totalAmount i :
  0 < totalAmount ->
  (i < Z.to_nat (numRequests totalAmount))%nat ->
  0 < amountInThisRequest totalAmount i <= 50.
Proof.
  intros Hpos Hi.
  pose proof (numRequests_bounds totalAmount Hpos) as Hb.
  destruct (Z.lt_ge_cases (Z.of_nat i) (numRequests totalAmount - 1)) as [Hlt | Hge].
  - rewrite amount_inner by done. lia.
  - rewrite amount_last by lia. lia.
Qed.

Lemma plan_inner totalAmount (m : nat) :
  Z.of_nat m <= numRequests totalAmount - 1 ->
  map (amountInThisRequest totalAmount) (seq 0 m) = replicate m 50.
Proof.
  induction m as [| m IH]; intros Hm; [done |].
  rewrite seq_S, map_app, IH by lia. cbn [map Nat.add].
  rewrite amount_inner by lia.
  replace (S m) with (m + 1)%nat by lia.
  by rewrite replicate_add.
Qed.

Lemma plan_shape totalAmount :
  0 < totalAmount ->
  requestPlan totalAmount =
    replicate (Z.to_nat (numRequests totalAmount - 1)) 50
      ++ [totalAmount - 50 * (numRequests totalAmount - 1)].
Proof.
  intros Hpos. pose proof (numRequests_pos totalAmount Hpos) as Hn.
  unfold requestPlan.
  replace (Z.to_nat (numRequests totalAmount))
    with (S (Z.to_nat (numRequests totalAmount - 1))) by lia.
  rewrite seq_S, map_app, plan_inner by lia. simpl.
  rewrite amount_last by lia. done.
Qed.

Lemma sumZ_app l1 l2 : sumZ (l1 ++ l2) = sumZ l1 + sumZ l2.
Proof. induction l1 as [| x l1 IH]; simpl; [done | rewrite IH; lia]. Qed.

Lemma sumZ_replicate (m : nat) x : sumZ (replicate m x) = Z.of_nat m * x.
Proof. induction m as [| m IH]; simpl; [done | rewrite IH; lia]. Qed.

Lemma plan_sum totalAmount :
  0 < totalAmount -> sumZ (requestPlan totalAmount) = totalAmount.
Proof.
  intros Hpos. pose proof (numRequests_pos totalAmount Hpos).
  rewrite plan_shape, sumZ_app, sumZ_replicate by done. simpl. lia.
Qed.

Lemma plan_length totalAmount :
  Z.of_nat (length (requestPlan totalAmount)) = Z.max 0 (numRequests totalAmount).
Proof. unfold requestPlan. rewrite length_map, length_seq. lia. Qed.

(* ===================================================================== *)
(** ** The request loop *)
(* ===================================================================== *)

Lemma world_eq (w1 w2 : World) :
  snap w1 = snap w2 -> sessionStorage w1 = sessionStorage w2 ->
  clock w1 = clock w2 -> trace w1 = trace w2 -> w1 = w2.
Proof. destruct w1, w2; simpl; intros; by subst. Qed.

Lemma advance_advance c1 c2 evs1 evs2 w :
  advance c2 evs2 (advance c1 evs1 w) = advance (c1 + c2) (evs1 ++ evs2) w.
Proof. apply world_eq; simpl; try done; [lia | by rewrite app_assoc]. Qed.

Lemma advance_0 w : advance 0 [] w = w.
Proof. apply world_eq; simpl; try done. by rewrite app_nil_r. Qed.

Ltac unfold_js :=
  unfold bind, tryCatch, tryFinally, fetch, json, wait, throw, ret,
    signal_aborted, setItem, setQuestions, setLoading, setError,
    getItem, removeItem in *.

Section LoopFacts.

Variable parseFromString : string -> option string.
Variable env : Env.
Variable totalAmount : Z.

Lemma aborted_by_mono (c c' : nat) :
  aborted_by env c = false -> (c' <= c)%nat -> aborted_by env c' = false.
Proof.
  unfold aborted_by. destruct (cancelAt env) as [a |]; [| done].
  intros H Hle. apply Nat.leb_gt in H. apply Nat.leb_gt. lia.
Qed.

Lemma aborted_by_never (c : nat) :
  cancelAt env = None -> aborted_by env c = false.
Proof. unfold aborted_by. by intros ->. Qed.

Lemma aborted_by_at (a c : nat) :
  cancelAt env = Some a -> aborted_by env c = (a <=? c)%nat.
Proof. unfold aborted_by. by intros ->. Qed.

(** An accepted exchange under a quiet signal: the iteration appends the
    decoded batch and goes on. *)
Lemma requestLoop_step remaining i acc w :
  accepted env i ->
  aborted_by env (3 + clock w) = false ->
  ((Z.of_nat i <? numRequests totalAmount - 1) = true ->
   aborted_by env (4 + clock w) = false) ->
  requestLoop parseFromString env totalAmount (S remaining) i acc w =
  requestLoop parseFromString env totalAmount remaining (S i)
    (acc ++ map (decodeQuestion parseFromString) (batchRecords env i))
    (advance (if Z.of_nat i <? numRequests totalAmount - 1 then 6 else 4)
       (batchEvents totalAmount i) w).
Proof.
  intros (r & data & Ht & Hok & Hb & Hc) H3 Hab.
  pose proof (aborted_by_mono _ (clock w) H3 ltac:(lia)) as H0.
  pose proof (aborted_by_mono _ (S (clock w)) H3 ltac:(lia)) as H1.
  unfold batchRecords, batchEvents. rewrite Ht, Hb.
  simpl requestLoop at 1. unfold_js. simpl in *.
  rewrite H0, H1, Ht, Hok. simpl. rewrite H3, Hb, Hc. simpl.
  destruct (Z.of_nat i <? numRequests totalAmount - 1) eqn:Hlast; simpl.
  - rewrite Hab by done. f_equal. apply world_eq; simpl; try done.
    by rewrite <- app_assoc.
  - f_equal.
Qed.

(** An iteration that lets the loop end normally met an accepted exchange
    and a quiet signal. *)
Lemma requestLoop_Normal_head remaining i acc w qs w' :
  requestLoop parseFromString env totalAmount (S remaining) i acc w = (Normal qs, w') ->
  accepted env i /\
  aborted_by env (3 + clock w) = false /\
  ((Z.of_nat i <? numRequests totalAmount - 1) = true ->
   aborted_by env (4 + clock w) = false).
Proof.
  simpl. unfold_js. simpl. intros H.
  repeat case_match; try discriminate; simplify_eq; simpl in *.
  all: split; [| by split].
  all: match goal with
       | Ht : transport env _ = Responds ?r, Hb : body ?r = BodyJson ?d |- _ =>
           exists r, d
       end.
  all: repeat split; try done.
  all: try by apply negb_false_iff.
  all: match goal with
       | Hc : negb (_ =? 0) = false |- _ =>
           apply negb_false_iff in Hc; lia
       end.
Qed.

(** A loop that ends normally: every exchange was accepted, the
    accumulator holds the decoded batches in order, and the trace the
    events of the iterations; state and storage are untouched. *)
Lemma requestLoop_Normal remaining :
  forall i acc w qs w',
    requestLoop parseFromString env totalAmount remaining i acc w = (Normal qs, w') ->
    (forall j, (i <= j < i + remaining)%nat -> accepted env j) /\
    qs = acc ++ decodedBatches parseFromString env i remaining /\
    snap w' = snap w /\ sessionStorage w' = sessionStorage w /\
    trace w' = trace w ++ flat_map (batchEvents totalAmount) (seq i remaining).
Proof.
  induction remaining as [| remaining IH]; intros i acc w qs w' H.
  - simpl in H. unfold ret in H. simplify_eq. unfold decodedBatches. simpl.
    rewrite !app_nil_r. repeat split; try done. intros j Hj. lia.
  - destruct (requestLoop_Normal_head _ _ _ _ _ _ H) as (Hacc & H3 & H4).
    rewrite requestLoop_step in H by done.
    apply IH in H as (Hall & -> & Hs & Hst & Htr).
    split; [| split; [| split; [| split]]].
    + intros j Hj. destruct (decide (j = i)) as [-> | Hne]; [done |].
      apply Hall. lia.
    + unfold decodedBatches. simpl. by rewrite <- app_assoc.
    + by rewrite Hs.
    + by rewrite Hst.
    + rewrite Htr. simpl. by rewrite <- !app_assoc.
Qed.

(** Whatever its outcome, the loop leaves the published state and the
    storage alone, and only adds to the trace. *)
Lemma requestLoop_frame remaining :
  forall i acc w res w',
    requestLoop parseFromString env totalAmount remaining i acc w = (res, w') ->
    snap w' = snap w /\ sessionStorage w' = sessionStorage w /\
    (clock w <= clock w')%nat /\
    exists evs, trace w' = trace w ++ evs /\ cacheWrites evs = [].
Proof.
  induction remaining as [| remaining IH]; intros i acc w res w' H.
  - simpl in H. unfold ret in H. simplify_eq.
    repeat split; try done. exists []. by rewrite app_nil_r.
  - simpl in H. unfold_js. simpl in H.
    repeat case_match; simplify_eq; simpl.
    all: try (apply IH in H as (Hs & Hst & Hc & evs & Htr & Hw); simpl in *;
              rewrite Hs, Hst, Htr; repeat split; try done; try lia;
              rewrite <- ?app_assoc; eexists; split; [done |]; simpl; done).
    all: repeat split; try done; try lia.
    all: try (exists []; by rewrite app_nil_r).
    all: try (eexists [_]; split; done).
Qed.

(** [m] accepted exchanges, none of them the last of the plan, under a
    signal that stays quiet until the delay after the last of them. *)
Lemma requestLoop_prefix (m : nat) :
  forall remaining i acc w,
    (forall j, (i <= j < i + m)%nat ->
       accepted env j /\ Z.of_nat j < numRequests totalAmount - 1) ->
    (forall c, (c + 2 <= clock w + 6 * m)%nat -> aborted_by env c = false) ->
    requestLoop parseFromString env totalAmount (m + remaining) i acc w =
    requestLoop parseFromString env totalAmount remaining (i + m)
      (acc ++ decodedBatches parseFromString env i m)
      (advance (6 * m)
         (flat_map (fun j => [EvFetch (amountInThisRequest totalAmount j); EvDelay 5000])
                   (seq i m)) w).
Proof.
  induction m as [| m IH]; intros remaining i acc w Hall Hquiet.
  - unfold decodedBatches. simpl. rewrite app_nil_r, advance_0.
    by replace (i + 0)%nat with i by lia.
  - destruct (Hall i ltac:(lia)) as [Hacc Hi].
    assert ((Z.of_nat i <? numRequests totalAmount - 1) = true) as Hlt
      by (apply Z.ltb_lt; lia).
    change (S m + remaining)%nat with (S (m + remaining)).
    rewrite requestLoop_step; [| done | apply Hquiet; lia | intros _; apply Hquiet; lia].
    rewrite Hlt, IH.
    + replace (S i + m)%nat with (i + S m)%nat by lia.
      rewrite advance_advance. f_equal.
      * unfold decodedBatches. simpl. by rewrite <- app_assoc.
      * unfold batchEvents. rewrite Hlt. simpl. f_equal. lia.
    + intros j Hj. apply Hall. lia.
    + intros c Hc. simpl in Hc. apply Hquiet. lia.
Qed.

End LoopFacts.

(* ===================================================================== *)
(** ** The network path and the cache check *)
(* ===================================================================== *)

Section HookFacts.

Variable parseFromString : string -> option string.
Variable env : Env.
Variable totalAmount : Z.

Lemma aborted_by_up (c c' : nat) :
  aborted_by env c = true -> (c <= c')%nat -> aborted_by env c' = true.
Proof.
  unfold aborted_by. destruct (cancelAt env) as [a |]; [| done].
  intros H Hle. apply Nat.leb_le in H. apply Nat.leb_le. lia.
Qed.

(** The loop throws an abort-named error only under an aborted signal. *)
Lemma requestLoop_Throw remaining :
  forall i acc w e w',
    requestLoop parseFromString env totalAmount remaining i acc w = (Throw e, w') ->
    isAbort e = true -> aborted_by env (clock w') = true.
Proof.
  induction remaining as [| remaining IH]; intros i acc w e w' H Hab.
  - simpl in H. unfold ret in H. simplify_eq.
  - simpl in H. unfold_js. simpl in H.
    repeat case_match; simplify_eq; simpl in *; try discriminate.
    all: try (by eapply IH).
    all: eapply aborted_by_up; [eassumption | lia].
Qed.

Lemma announced_snap w :
  snap (announced w) =
    {| questions := questions (snap w); loading := true; error := None |}.
Proof. done. Qed.

Lemma announced_storage w : sessionStorage (announced w) = sessionStorage w.
Proof. done. Qed.

Lemma announced_clock w : clock (announced w) = clock w.
Proof. done. Qed.

Lemma announced_trace w :
  trace (announced w) = trace w ++ [EvSetLoading true; EvSetError None].
Proof. unfold announced. simpl. by rewrite <- app_assoc. Qed.

(** The [try] block ran to its end: the loop ended normally, the store
    took the write, and the accumulator was published. *)
Lemma tryBlock_Normal w w1 :
  tryBlock parseFromString env totalAmount w = (Normal tt, w1) ->
  exists all wl,
    requestLoop parseFromString env totalAmount
      (Z.to_nat (numRequests totalAmount)) O [] w = (Normal all, wl) /\
    quotaExceeded env = false /\
    snap w1 = {| questions := all; loading := loading (snap wl);
                 error := error (snap wl) |} /\
    sessionStorage w1 =
      <[CACHE_KEY totalAmount := JsonArray all]> (sessionStorage wl) /\
    clock w1 = clock wl /\
    trace w1 = trace wl ++ [EvSetItem (CACHE_KEY totalAmount); EvSetQuestions all].
Proof.
  unfold tryBlock. unfold_js. intros H.
  destruct (requestLoop _ _ _ _ _ _ w) as [[all | e] wl] eqn:Hloop; [| discriminate].
  destruct (quotaExceeded env) eqn:Hq; [discriminate |].
  simplify_eq. exists all, wl. simpl. repeat split; try done.
  by rewrite <- app_assoc.
Qed.

(** The [try] block threw: nothing was published, nothing was written. *)
Lemma tryBlock_Throw w e w1 :
  tryBlock parseFromString env totalAmount w = (Throw e, w1) ->
  snap w1 = snap w /\ sessionStorage w1 = sessionStorage w /\
  (isAbort e = true -> aborted_by env (clock w1) = true) /\
  exists evs, trace w1 = trace w ++ evs /\ cacheWrites evs = [].
Proof.
  unfold tryBlock. unfold_js. intros H.
  destruct (requestLoop _ _ _ _ _ _ w) as [[all | e'] wl] eqn:Hloop.
  - destruct (quotaExceeded env) eqn:Hq; [| discriminate]. simplify_eq.
    apply requestLoop_frame in Hloop as (Hs & Hst & _ & evs & Htr & Hw).
    repeat split; try done. by exists evs.
  - simplify_eq.
    pose proof (requestLoop_Throw _ _ _ _ _ _ Hloop) as Hab.
    apply requestLoop_frame in Hloop as (Hs & Hst & _ & evs & Htr & Hw).
    repeat split; try done. by exists evs.
Qed.

Lemma catchBlock_Normal e w : fst (catchBlock e w) = Normal tt.
Proof. destruct e as [name message |]; simpl; [| done]. by case_match. Qed.

(** What the handler leaves behind. *)
Lemma catchBlock_quiet e w :
  isAbort e = true -> catchBlock e w = (Normal tt, w).
Proof. destruct e as [name message |]; simpl; [| done]. by intros ->. Qed.

Lemma catchBlock_loud e w :
  isAbort e = false -> catchBlock e w = setError (Some (reported e)) w.
Proof. destruct e as [name message |]; simpl; [| done]. by intros ->. Qed.

Lemma finallyBlock_quiet w :
  aborted_by env (clock w) = false -> finallyBlock env w = setLoading false w.
Proof. unfold finallyBlock. unfold_js. by intros ->. Qed.

Lemma finallyBlock_aborted w :
  aborted_by env (clock w) = true -> finallyBlock env w = (Normal tt, w).
Proof. unfold finallyBlock. unfold_js. by intros ->. Qed.

Lemma finallyBlock_Normal w : fst (finallyBlock env w) = Normal tt.
Proof. unfold finallyBlock. unfold_js. by case_match. Qed.

Lemma fetchFresh_after_success w w1 :
  tryBlock parseFromString env totalAmount (announced w) = (Normal tt, w1) ->
  fetchFresh parseFromString env totalAmount w = finallyBlock env w1.
Proof.
  intros H. unfold fetchFresh, announced in *. unfold bind, tryFinally, tryCatch in *.
  simpl in *. rewrite H.
  pose proof (finallyBlock_Normal w1) as Hf.
  destruct (finallyBlock env w1) as [[[] | e] w2]; simpl in Hf; by simplify_eq.
Qed.

Lemma fetchFresh_after_failure w e w1 :
  tryBlock parseFromString env totalAmount (announced w) = (Throw e, w1) ->
  fetchFresh parseFromString env totalAmount w =
    finallyBlock env (snd (catchBlock e w1)).
Proof.
  intros H. unfold fetchFresh, announced in *. unfold bind, tryFinally, tryCatch in *.
  simpl in *. rewrite H.
  pose proof (catchBlock_Normal e w1) as Hc.
  destruct (catchBlock e w1) as [[[] | e'] w2]; simpl in Hc; simplify_eq.
  pose proof (finallyBlock_Normal w2) as Hf. simpl.
  destruct (finallyBlock env w2) as [[[] | e'] w3]; simpl in Hf; by simplify_eq.
Qed.

(** [fetchData] never throws. *)
Lemma fetchFresh_Normal w :
  fst (fetchFresh parseFromString env totalAmount w) = Normal tt.
Proof.
  destruct (tryBlock parseFromString env totalAmount (announced w))
    as [[[] | e] w1] eqn:H.
  - rewrite (fetchFresh_after_success _ _ H). apply finallyBlock_Normal.
  - rewrite (fetchFresh_after_failure _ _ _ H). apply finallyBlock_Normal.
Qed.

(** The network path starts by announcing the load. *)
Lemma fetchFresh_trace w :
  exists rest,
    trace (snd (fetchFresh parseFromString env totalAmount w)) =
      trace w ++ [EvSetLoading true; EvSetError None] ++ rest.
Proof.
  destruct (tryBlock parseFromString env totalAmount (announced w))
    as [[[] | e] w1] eqn:H.
  - rewrite (fetchFresh_after_success _ _ H).
    apply tryBlock_Normal in H as (all & wl & Hloop & _ & _ & _ & _ & Htr).
    apply requestLoop_frame in Hloop as (_ & _ & _ & evs & Hl & _).
    rewrite announced_trace in Hl.
    unfold finallyBlock. unfold_js. case_match; simpl; rewrite Htr, Hl.
    + eexists. by rewrite <- !app_assoc.
    + eexists. by rewrite <- !app_assoc.
  - rewrite (fetchFresh_after_failure _ _ _ H).
    apply tryBlock_Throw in H as (_ & _ & _ & evs & Htr & _).
    rewrite announced_trace in Htr.
    unfold finallyBlock. unfold_js.
    destruct e as [name message |]; simpl; repeat case_match; simpl; rewrite Htr.
    all: eexists; by rewrite <- !app_assoc.
Qed.

End HookFacts.

(* ===================================================================== *)
(** ** Batches, records and the cache check *)
(* ===================================================================== *)

Lemma decodedBatches_app parseFromString env i m1 m2 :
  decodedBatches parseFromString env i (m1 + m2) =
    decodedBatches parseFromString env i m1
      ++ decodedBatches parseFromString env (i + m1) m2.
Proof. unfold decodedBatches. by rewrite seq_app, map_app, concat_app. Qed.

Lemma decodedBatches_one parseFromString env i :
  decodedBatches parseFromString env i 1 =
    map (decodeQuestion parseFromString) (batchRecords env i).
Proof. unfold decodedBatches. simpl. by rewrite app_nil_r. Qed.

Lemma decodedBatches_map parseFromString env i m :
  decodedBatches parseFromString env i m =
    map (decodeQuestion parseFromString) (concat (map (batchRecords env) (seq i m))).
Proof.
  unfold decodedBatches. generalize (seq i m) as l.
  induction l as [| j l IH]; simpl; [done |]. by rewrite map_app, IH.
Qed.

Lemma decodedBatches_length parseFromString env (l : list nat) :
  Z.of_nat (length (concat (map (fun j =>
     map (decodeQuestion parseFromString) (batchRecords env j)) l))) =
  sumZ (map (fun j => Z.of_nat (length (batchRecords env j))) l).
Proof.
  induction l as [| j l IH]; simpl; [done |].
  rewrite length_app, length_map, Nat2Z.inj_add, IH. done.
Qed.

Lemma requestsIssued_app tr1 tr2 :
  requestsIssued (tr1 ++ tr2) = requestsIssued tr1 ++ requestsIssued tr2.
Proof. unfold requestsIssued. apply omap_app. Qed.

Lemma requestsIssued_batches totalAmount (l : list nat) :
  requestsIssued (flat_map (batchEvents totalAmount) l) =
    map (amountInThisRequest totalAmount) l.
Proof.
  induction l as [| j l IH]; [done |].
  change (flat_map (batchEvents totalAmount) (j :: l))
    with (batchEvents totalAmount j ++ flat_map (batchEvents totalAmount) l).
  rewrite requestsIssued_app, IH. unfold batchEvents.
  by destruct (Z.of_nat j <? numRequests totalAmount - 1).
Qed.

Lemma requestsIssued_delayed totalAmount (l : list nat) :
  requestsIssued
    (flat_map (fun j => [EvFetch (amountInThisRequest totalAmount j); EvDelay 5000]) l) =
    map (amountInThisRequest totalAmount) l.
Proof. induction l as [| j l IH]; simpl; [done | by rewrite IH]. Qed.

Section CacheFacts.

Variable totalAmount : Z.

(** A stored text that cannot be parsed is removed, and the check
    reports a miss. *)
Lemma readCache_corrupt w raw :
  sessionStorage w !! CACHE_KEY totalAmount = Some (Unparseable raw) ->
  readCache totalAmount w =
    (Normal false, snd (removeItem (CACHE_KEY totalAmount) w)).
Proof. intros H. unfold readCache. unfold_js. by rewrite H. Qed.

(** A stored non-empty collection is published as it is. *)
Lemma readCache_hit w qs :
  sessionStorage w !! CACHE_KEY totalAmount = Some (JsonArray qs) ->
  qs <> [] ->
  readCache totalAmount w =
    (Normal true,
     advance 0 [EvSetQuestions qs; EvSetLoading false]
       (publish {| questions := qs; loading := false; error := error (snap w) |} w)).
Proof.
  intros H Hne. unfold readCache. unfold_js. rewrite H. simpl.
  destruct qs as [| q qs]; [done |]. simpl. f_equal.
  apply world_eq; simpl; try done. by rewrite <- app_assoc.
Qed.

(** The two ways out of the cache check. *)
Lemma readCache_cases w :
  (exists qs,
     qs <> [] /\
     readCache totalAmount w =
       (Normal true,
        advance 0 [EvSetQuestions qs; EvSetLoading false]
          (publish {| questions := qs; loading := false; error := error (snap w) |} w)))
  \/
  (exists w0,
     readCache totalAmount w = (Normal false, w0) /\
     snap w0 = snap w /\ clock w0 = clock w).
Proof.
  destruct (sessionStorage w !! CACHE_KEY totalAmount) as [text |] eqn:H.
  - destruct text as [| raw | | qs | raw].
    + right. exists w. unfold readCache. unfold_js. by rewrite H.
    + right. eexists. by rewrite (readCache_corrupt _ _ H).
    + right. eexists. unfold readCache. unfold_js. rewrite H. simpl. done.
    + destruct qs as [| q qs].
      * right. exists w. unfold readCache. unfold_js. by rewrite H.
      * left. exists (q :: qs). split; [done |]. by apply readCache_hit.
    + right. exists w. unfold readCache. unfold_js. by rewrite H.
  - right. exists w. unfold readCache. unfold_js. by rewrite H.
Qed.

End CacheFacts.

(* ===================================================================== *)
(** ** Successful runs *)
(* ===================================================================== *)

(** What a successful run of the network path leaves behind. *)
Lemma success_outcome parseFromString env totalAmount w :
  succeeds parseFromString env totalAmount w ->
  let n := Z.to_nat (numRequests totalAmount) in
  let all := decodedBatches parseFromString env 0 n in
  let w' := snd (fetchFresh parseFromString env totalAmount w) in
  (forall j, (j < n)%nat -> accepted env j) /\
  questions (snap w') = all /\
  error (snap w') = None /\
  (cancelAt env = None -> loading (snap w') = false) /\
  sessionStorage w' = <[CACHE_KEY totalAmount := JsonArray all]> (sessionStorage w) /\
  exists tail,
    (tail = [] \/ tail = [EvSetLoading false]) /\
    trace w' =
      trace w ++ [EvSetLoading true; EvSetError None]
        ++ flat_map (batchEvents totalAmount) (seq 0 n)
        ++ [EvSetItem (CACHE_KEY totalAmount); EvSetQuestions all] ++ tail.
Proof.
  unfold succeeds. intros Hsucc.
  destruct (tryBlock parseFromString env totalAmount (announced w))
    as [[[] | e] w1] eqn:H; [clear Hsucc | done].
  simpl. rewrite (fetchFresh_after_success _ _ _ _ _ H).
  apply tryBlock_Normal in H as (all & wl & Hloop & Hq & Hs1 & Hst1 & Hc1 & Htr1).
  apply requestLoop_Normal in Hloop as (Hall & Hqs & Hs & Hst & Htr).
  simpl in Hqs. subst all.
  rewrite announced_trace in Htr. rewrite announced_storage in Hst.
  rewrite Hs, announced_snap in Hs1. simpl in Hs1.
  split; [intros j Hj; apply Hall; lia |].
  destruct (aborted_by env (clock w1)) eqn:Hab.
  - rewrite finallyBlock_aborted by done. simpl.
    rewrite Hs1, Hst1, Hst, Htr1, Htr. simpl. repeat split; try done.
    { intros Hnever. by rewrite aborted_by_never in Hab. }
    exists []. split; [by left |]. by rewrite <- !app_assoc.
  - rewrite finallyBlock_quiet by done. simpl.
    rewrite Hs1, Hst1, Hst, Htr1, Htr. simpl. repeat split; try done.
    exists [EvSetLoading false]. split; [by right |]. by rewrite <- !app_assoc.
Qed.

(** What a failed run of the network path leaves behind when the failure
    is not abort-named and the signal is quiet. *)
Lemma failure_outcome parseFromString env totalAmount w e w1 :
  tryBlock parseFromString env totalAmount (announced w) = (Throw e, w1) ->
  isAbort e = false ->
  aborted_by env (clock w1) = false ->
  let w' := snd (fetchFresh parseFromString env totalAmount w) in
  snap w' = {| questions := questions (snap w); loading := false;
               error := Some (reported e) |} /\
  sessionStorage w' = sessionStorage w.
Proof.
  intros H Hab Hquiet. simpl.
  rewrite (fetchFresh_after_failure _ _ _ _ _ _ H).
  apply tryBlock_Throw in H as (Hs & Hst & _).
  rewrite catchBlock_loud by done.
  rewrite finallyBlock_quiet by done. simpl.
  by rewrite Hs, Hst.
Qed.

Lemma fullSource_honours totalAmount :
  0 < totalAmount -> honoursAmounts (quietEnv (fullSource totalAmount)) totalAmount.
Proof.
  intros Hpos i Hi. unfold batchRecords. simpl.
  pose proof (amount_range totalAmount i Hpos Hi).
  rewrite length_replicate. lia.
Qed.

Lemma honoured_length parseFromString env totalAmount :
  0 < totalAmount -> honoursAmounts env totalAmount ->
  Z.of_nat (length (decodedBatches parseFromString env 0
                      (Z.to_nat (numRequests totalAmount)))) = totalAmount.
Proof.
  intros Hpos Hh. unfold decodedBatches. rewrite decodedBatches_length.
  rewrite <- (plan_sum totalAmount Hpos) at 2. unfold requestPlan. f_equal.
  apply map_ext_in. intros j Hj. apply in_seq in Hj. apply Hh. lia.
Qed.

(* ===================================================================== *)
(** ** Cancelled runs *)
(* ===================================================================== *)

Section Cancellation.

Variable parseFromString : string -> option string.
Variable env : Env.
Variable totalAmount : Z.

(** The signal goes off while request [i] or its body is in flight: the
    pending promise rejects with the platform's abort error. *)
Lemma requestLoop_cancel_in_flight remaining i acc w :
  accepted env i ->
  aborted_by env (clock w) = false ->
  aborted_by env (3 + clock w) = true ->
  exists c,
    requestLoop parseFromString env totalAmount (S remaining) i acc w =
      (Throw AbortError,
       advance c [EvFetch (amountInThisRequest totalAmount i)] w) /\
    aborted_by env (c + clock w) = true.
Proof.
  intros (r & data & Ht & Hok & Hb & Hc) H0 H3. simpl in H3.
  simpl. unfold_js. rewrite H0.
  destruct (aborted_by env (S (clock w))) eqn:H1.
  - exists 2%nat. split; [f_equal |].
    apply (aborted_by_up env (S (clock w))); [done | lia].
  - rewrite Ht, Hok. simpl. rewrite H3.
    exists 4%nat. split; [f_equal |].
    apply (aborted_by_up env (S (S (S (clock w))))); [done | lia].
Qed.

(** The signal goes off after the body of request [i] has arrived and
    before the check that precedes the delay: the check throws an
    [Error] whose message, not whose name, is ["AbortError"]. *)
Lemma requestLoop_cancel_at_check remaining i acc w :
  accepted env i ->
  aborted_by env (3 + clock w) = false ->
  (Z.of_nat i <? numRequests totalAmount - 1) = true ->
  aborted_by env (4 + clock w) = true ->
  requestLoop parseFromString env totalAmount (S remaining) i acc w =
    (Throw (new_Error "AbortError"),
     advance 4 [EvFetch (amountInThisRequest totalAmount i)] w).
Proof.
  intros (r & data & Ht & Hok & Hb & Hc) H3 Hlt H4.
  pose proof (aborted_by_mono _ _ (clock w) H3 ltac:(lia)) as H0.
  pose proof (aborted_by_mono _ _ (S (clock w)) H3 ltac:(lia)) as H1.
  simpl in *. unfold_js. simpl.
  rewrite H0, H1, Ht, Hok. simpl. rewrite H3, Hb, Hc. simpl.
  rewrite Hlt. simpl. rewrite H4. f_equal.
Qed.

(** Cancellation that lands while request [k] or its body is in flight is
    silent, whichever batch it hits. *)
Lemma cancel_in_flight_silent w (k a : nat) :
  (k < Z.to_nat (numRequests totalAmount))%nat ->
  (forall j, (j <= k)%nat -> accepted env j) ->
  cancelAt env = Some a ->
  a = (6 * k + 1)%nat \/ a = (6 * k + 3)%nat ->
  clock w = O ->
  let w' := snd (fetchFresh parseFromString env totalAmount w) in
  snap w' = {| questions := questions (snap w); loading := true; error := None |} /\
  sessionStorage w' = sessionStorage w /\
  requestsIssued (trace w') =
    requestsIssued (trace w) ++ map (amountInThisRequest totalAmount) (seq 0 (S k)).
Proof.
  intros Hk Hacc Hcancel Ha Hclock. simpl.
  set (w1 := advance (6 * k)
               (flat_map (fun j => [EvFetch (amountInThisRequest totalAmount j);
                                    EvDelay 5000]) (seq 0 k))
               (announced w)).
  assert (clock w1 = (6 * k)%nat) as Hc1
    by (unfold w1; simpl; rewrite Hclock; lia).
  destruct (requestLoop_cancel_in_flight
              (Z.to_nat (numRequests totalAmount) - S k) k
              ([] ++ decodedBatches parseFromString env 0 k) w1)
    as (c & Hstep & Hc).
  { apply Hacc. lia. }
  { rewrite (aborted_by_at _ _ _ Hcancel), Hc1. apply Nat.leb_gt. lia. }
  { rewrite (aborted_by_at _ _ _ Hcancel), Hc1. apply Nat.leb_le. lia. }
  assert (tryBlock parseFromString env totalAmount (announced w)
          = (Throw AbortError,
             advance c [EvFetch (amountInThisRequest totalAmount k)] w1)) as H.
  { unfold tryBlock, bind.
    replace (Z.to_nat (numRequests totalAmount))
      with (k + S (Z.to_nat (numRequests totalAmount) - S k))%nat by lia.
    rewrite requestLoop_prefix.
    - fold w1. simpl Nat.add. by rewrite Hstep.
    - intros j Hj. split; [apply Hacc; lia | lia].
    - intros c' Hc'. rewrite (aborted_by_at _ _ _ Hcancel). apply Nat.leb_gt.
      rewrite announced_clock, Hclock in Hc'. lia. }
  rewrite (fetchFresh_after_failure _ _ _ _ _ _ H).
  rewrite catchBlock_quiet by done. simpl.
  rewrite finallyBlock_aborted.
  - simpl. repeat split; try done.
    change (amountInThisRequest totalAmount 0
              :: map (amountInThisRequest totalAmount) (seq 1 k))
      with (map (amountInThisRequest totalAmount) (seq 0 (S k))).
    rewrite !requestsIssued_app, seq_S, map_app. simpl.
    by rewrite requestsIssued_delayed, !app_nil_r, <- app_assoc.
  - exact Hc.
Qed.

(** Cancellation that lands between the arrival of batch [k], not the
    last one, and the check before the delay publishes the error
    ["AbortError"], whichever batch it hits. *)
Lemma cancel_at_check_publishes_error w (k : nat) :
  (S k < Z.to_nat (numRequests totalAmount))%nat ->
  (forall j, (j <= k)%nat -> accepted env j) ->
  cancelAt env = Some (6 * k + 4)%nat ->
  clock w = O ->
  let w' := snd (fetchFresh parseFromString env totalAmount w) in
  snap w' = {| questions := questions (snap w); loading := true;
               error := Some "AbortError" |} /\
  sessionStorage w' = sessionStorage w.
Proof.
  intros Hk Hacc Hcancel Hclock. simpl.
  set (w1 := advance (6 * k)
               (flat_map (fun j => [EvFetch (amountInThisRequest totalAmount j);
                                    EvDelay 5000]) (seq 0 k))
               (announced w)).
  assert (clock w1 = (6 * k)%nat) as Hc1
    by (unfold w1; simpl; rewrite Hclock; lia).
  assert (tryBlock parseFromString env totalAmount (announced w)
          = (Throw (new_Error "AbortError"),
             advance 4 [EvFetch (amountInThisRequest totalAmount k)] w1)) as H.
  { unfold tryBlock, bind.
    replace (Z.to_nat (numRequests totalAmount))
      with (k + S (Z.to_nat (numRequests totalAmount) - S k))%nat by lia.
    rewrite requestLoop_prefix.
    - fold w1. simpl Nat.add. rewrite requestLoop_cancel_at_check; [done | ..].
      + apply Hacc. lia.
      + rewrite (aborted_by_at _ _ _ Hcancel), Hc1. apply Nat.leb_gt. lia.
      + apply Z.ltb_lt. lia.
      + rewrite (aborted_by_at _ _ _ Hcancel), Hc1. apply Nat.leb_le. lia.
    - intros j Hj. split; [apply Hacc; lia | lia].
    - intros c' Hc'. rewrite (aborted_by_at _ _ _ Hcancel). apply Nat.leb_gt.
      rewrite announced_clock, Hclock in Hc'. lia. }
  rewrite (fetchFresh_after_failure _ _ _ _ _ _ H).
  rewrite catchBlock_loud by done. simpl.
  rewrite finallyBlock_aborted; [done |].
  rewrite (aborted_by_at _ _ _ Hcancel). apply Nat.leb_le. simpl. lia.
Qed.

End Cancellation.

(* ===================================================================== *)
(** ** Runs against an accepting source, and the first request *)
(* ===================================================================== *)

(** Accepted exchanges under a signal that never goes off: the loop runs
    to its end. *)
Lemma requestLoop_all_accepted parseFromString env totalAmount remaining :
  forall i acc w,
    cancelAt env = None ->
    (forall j, (i <= j < i + remaining)%nat -> accepted env j) ->
    fst (requestLoop parseFromString env totalAmount remaining i acc w) =
      Normal (acc ++ decodedBatches parseFromString env i remaining).
Proof.
  induction remaining as [| remaining IH]; intros i acc w Hnever Hacc.
  - unfold decodedBatches. simpl. by rewrite app_nil_r.
  - rewrite requestLoop_step;
      [| apply Hacc; lia | by apply aborted_by_never
       | intros _; by apply aborted_by_never].
    rewrite IH; [| done | intros j Hj; apply Hacc; lia].
    unfold decodedBatches. simpl. by rewrite <- app_assoc.
Qed.

Lemma accepted_run_succeeds parseFromString env totalAmount w :
  cancelAt env = None ->
  quotaExceeded env = false ->
  (forall j, (j < Z.to_nat (numRequests totalAmount))%nat -> accepted env j) ->
  succeeds parseFromString env totalAmount w.
Proof.
  intros Hnever Hq Hacc. unfold succeeds, tryBlock, bind.
  pose proof (requestLoop_all_accepted parseFromString env totalAmount
                (Z.to_nat (numRequests totalAmount)) 0 [] (announced w) Hnever) as H.
  destruct (requestLoop parseFromString env totalAmount
              (Z.to_nat (numRequests totalAmount)) 0 [] (announced w)) as [res wl].
  simpl in H. rewrite H by (intros j Hj; apply Hacc; lia).
  unfold setItem. by rewrite Hq.
Qed.

(** Under a signal that is quiet when the loop starts, the first thing
    the loop does is to put the request of its first index on the
    network. *)
Lemma requestLoop_first_request parseFromString env totalAmount remaining i acc w res w' :
  aborted_by env (clock w) = false ->
  requestLoop parseFromString env totalAmount (S remaining) i acc w = (res, w') ->
  exists rest,
    trace w' = trace w ++ EvFetch (amountInThisRequest totalAmount i) :: rest.
Proof.
  intros H0 H. simpl in H. unfold_js. simpl in H. rewrite H0 in H.
  repeat case_match; simplify_eq; simpl.
  all: try (apply requestLoop_frame in H as (_ & _ & _ & evs & -> & _); simpl;
            rewrite <- ?app_assoc; simpl; by eexists).
  all: by exists [].
Qed.

Lemma fetchFresh_first_request parseFromString env totalAmount w :
  0 < totalAmount ->
  aborted_by env (clock w) = false ->
  exists rest,
    trace (snd (fetchFresh parseFromString env totalAmount w)) =
      trace w ++ [EvSetLoading true; EvSetError None;
                  EvFetch (amountInThisRequest totalAmount 0)] ++ rest.
Proof.
  intros Hpos H0. pose proof (numRequests_pos totalAmount Hpos) as Hn.
  destruct (Z.to_nat (numRequests totalAmount)) as [| m] eqn:Hm; [lia |].
  destruct (tryBlock parseFromString env totalAmount (announced w))
    as [[[] | e] w1] eqn:H.
  - rewrite (fetchFresh_after_success _ _ _ _ _ H).
    apply tryBlock_Normal in H as (all & wl & Hloop & _ & _ & _ & _ & Htr1).
    rewrite Hm in Hloop.
    apply requestLoop_first_request in Hloop as [rest Htr]; [| done].
    rewrite announced_trace in Htr.
    unfold finallyBlock. unfold_js. case_match; simpl; rewrite Htr1, Htr;
      rewrite <- !app_assoc; simpl; by eexists.
  - rewrite (fetchFresh_after_failure _ _ _ _ _ _ H).
    unfold tryBlock, bind in H. rewrite Hm in H.
    destruct (requestLoop parseFromString env totalAmount (S m) 0 [] (announced w))
      as [[all | e'] wl] eqn:Hloop.
    + unfold_js. destruct (quotaExceeded env); [| done]. simplify_eq.
      apply requestLoop_first_request in Hloop as [rest Htr]; [| done].
      rewrite announced_trace in Htr.
      unfold finallyBlock. unfold_js. simpl. case_match; simpl; rewrite Htr;
        rewrite <- !app_assoc; simpl; by eexists.
    + simplify_eq.
      apply requestLoop_first_request in Hloop as [rest Htr]; [| done].
      rewrite announced_trace in Htr.
      unfold finallyBlock. unfold_js.
      destruct e as [name message |]; simpl; repeat case_match; simpl; rewrite Htr;
        rewrite <- !app_assoc; simpl; by eexists.
Qed.




(* ===================================================================== *)
(** ** Cancelled runs, by the moment of cancellation *)
(* ===================================================================== *)

Section CancelledTraces.

Variable parseFromString : string -> option string.
Variable env : Env.
Variable totalAmount : Z.
Variable w : World.
Variable a : nat.
Hypothesis Hcancel : cancelAt env = Some a.
Hypothesis Hclock : clock w = O.

(** The signal is already aborted when the first call is made. *)
Lemma cancel_before_first_call :
  a = O ->
  (1 <= Z.to_nat (numRequests totalAmount))%nat ->
  let w' := snd (fetchFresh parseFromString env totalAmount w) in
  trace w' = trace w ++ [EvSetLoading true; EvSetError None] /\
  snap w' = {| questions := questions (snap w); loading := true; error := None |} /\
  sessionStorage w' = sessionStorage w.
Proof.
  intros Ha Hn. simpl.
  assert (tryBlock parseFromString env totalAmount (announced w)
          = (Throw AbortError, resume (announced w))) as H.
  { unfold tryBlock, bind.
    destruct (Z.to_nat (numRequests totalAmount)) as [| m]; [lia |].
    simpl. unfold bind, fetch.
    replace (aborted_by env (clock (announced w))) with true; [done |].
    symmetry. rewrite (aborted_by_at _ _ _ Hcancel). apply Nat.leb_le. lia. }
  rewrite (fetchFresh_after_failure _ _ _ _ _ _ H).
  rewrite catchBlock_quiet by done. simpl.
  rewrite finallyBlock_aborted.
  - simpl. repeat split; try done. by rewrite <- !app_assoc.
  - rewrite (aborted_by_at _ _ _ Hcancel). apply Nat.leb_le. lia.
Qed.

Variable k : nat.
Hypothesis Hacc : forall j, (j <= k)%nat -> accepted env j.

(** The world in which iteration [k] starts when the iterations before
    it ran undisturbed: a request and a full delay for each of them. *)
Lemma clock_at_iteration :
  clock (advance (6 * k)
       (flat_map (fun j => [EvFetch (amountInThisRequest totalAmount j);
                            EvDelay 5000]) (seq 0 k))
       (announced w)) = (6 * k)%nat.
Proof. simpl. rewrite Hclock. lia. Qed.

Lemma tryBlock_reaches (remaining : nat) :
  (k + remaining = Z.to_nat (numRequests totalAmount))%nat ->
  (1 <= remaining)%nat ->
  (6 * k < a)%nat ->
  tryBlock parseFromString env totalAmount (announced w) =
    bind (requestLoop parseFromString env totalAmount remaining k
            ([] ++ decodedBatches parseFromString env 0 k))
         (fun allFetchedQuestions =>
            setItem env (CACHE_KEY totalAmount) (JSON_stringify allFetchedQuestions) ;;
            setQuestions allFetchedQuestions)
    (advance (6 * k)
       (flat_map (fun j => [EvFetch (amountInThisRequest totalAmount j);
                            EvDelay 5000]) (seq 0 k))
       (announced w)).
Proof.
  intros Hn Hr Ha. unfold tryBlock. unfold bind at 1 3. rewrite <- Hn.
  rewrite requestLoop_prefix; [done | |].
  - intros j Hj. split; [apply Hacc; lia | lia].
  - intros c Hc. rewrite (aborted_by_at _ _ _ Hcancel). apply Nat.leb_gt.
    rewrite announced_clock, Hclock in Hc. lia.
Qed.

(** The signal goes off while request [k] or its body is in flight, or
    between the two. *)
Lemma cancel_in_flight_trace :
  (k < Z.to_nat (numRequests totalAmount))%nat ->
  (6 * k + 1 <= a <= 6 * k + 3)%nat ->
  let w' := snd (fetchFresh parseFromString env totalAmount w) in
  trace w' =
    trace w ++ [EvSetLoading true; EvSetError None]
      ++ flat_map (fun j => [EvFetch (amountInThisRequest totalAmount j);
                             EvDelay 5000]) (seq 0 k)
      ++ [EvFetch (amountInThisRequest totalAmount k)] /\
  snap w' = {| questions := questions (snap w); loading := true; error := None |} /\
  sessionStorage w' = sessionStorage w.
Proof.
  intros Hk Ha. simpl.
  pose proof clock_at_iteration as Hc1.
  set (w1 := (advance (6 * k)
              (flat_map (fun j => [EvFetch (amountInThisRequest totalAmount j);
                                   EvDelay 5000]) (seq 0 k))
              (announced w))) in *.
  destruct (requestLoop_cancel_in_flight parseFromString env totalAmount
              (Z.to_nat (numRequests totalAmount) - S k) k
              ([] ++ decodedBatches parseFromString env 0 k) w1)
    as (c & Hstep & Hc).
  { apply Hacc. lia. }
  { rewrite (aborted_by_at _ _ _ Hcancel), Hc1. apply Nat.leb_gt. lia. }
  { rewrite (aborted_by_at _ _ _ Hcancel), Hc1. apply Nat.leb_le. lia. }
  assert (tryBlock parseFromString env totalAmount (announced w)
          = (Throw AbortError,
             advance c [EvFetch (amountInThisRequest totalAmount k)] w1)) as H.
  { rewrite (tryBlock_reaches (S (Z.to_nat (numRequests totalAmount) - S k)));
      [| lia | lia | lia].
    fold w1. unfold bind. by rewrite Hstep. }
  rewrite (fetchFresh_after_failure _ _ _ _ _ _ H).
  rewrite catchBlock_quiet by done. simpl.
  rewrite finallyBlock_aborted; [| exact Hc].
  simpl. repeat split; try done. by rewrite <- !app_assoc.
Qed.

(** The signal goes off after the body of request [k] has arrived and
    before the check that precedes the delay. *)
Lemma cancel_at_check_trace :
  (S k < Z.to_nat (numRequests totalAmount))%nat ->
  a = (6 * k + 4)%nat ->
  let w' := snd (fetchFresh parseFromString env totalAmount w) in
  trace w' =
    trace w ++ [EvSetLoading true; EvSetError None]
      ++ flat_map (fun j => [EvFetch (amountInThisRequest totalAmount j);
                             EvDelay 5000]) (seq 0 k)
      ++ [EvFetch (amountInThisRequest totalAmount k);
          EvSetError (Some "AbortError")] /\
  sessionStorage w' = sessionStorage w.
Proof.
  intros Hk Ha. simpl.
  pose proof clock_at_iteration as Hc1.
  set (w1 := (advance (6 * k)
              (flat_map (fun j => [EvFetch (amountInThisRequest totalAmount j);
                                   EvDelay 5000]) (seq 0 k))
              (announced w))) in *.
  assert (tryBlock parseFromString env totalAmount (announced w)
          = (Throw (new_Error "AbortError"),
             advance 4 [EvFetch (amountInThisRequest totalAmount k)] w1)) as H.
  { rewrite (tryBlock_reaches (S (Z.to_nat (numRequests totalAmount) - S k)));
      [| lia | lia | lia].
    fold w1. unfold bind. rewrite requestLoop_cancel_at_check; [done | ..].
    - apply Hacc. lia.
    - rewrite (aborted_by_at _ _ _ Hcancel), Hc1. apply Nat.leb_gt. lia.
    - apply Z.ltb_lt. lia.
    - rewrite (aborted_by_at _ _ _ Hcancel), Hc1. apply Nat.leb_le. lia. }
  rewrite (fetchFresh_after_failure _ _ _ _ _ _ H).
  rewrite catchBlock_loud by done. simpl.
  rewrite finallyBlock_aborted.
  - simpl. split; [| done]. by rewrite <- !app_assoc.
  - rewrite (aborted_by_at _ _ _ Hcancel). apply Nat.leb_le. simpl. lia.
Qed.

(** The signal goes off during the delay after batch [k], or once that
    delay has elapsed and before the next call. *)
Lemma cancel_in_delay_trace :
  (S k < Z.to_nat (numRequests totalAmount))%nat ->
  (6 * k + 5 <= a <= 6 * k + 6)%nat ->
  let w' := snd (fetchFresh parseFromString env totalAmount w) in
  trace w' =
    trace w ++ [EvSetLoading true; EvSetError None]
      ++ flat_map (fun j => [EvFetch (amountInThisRequest totalAmount j);
                             EvDelay 5000]) (seq 0 (S k)) /\
  snap w' = {| questions := questions (snap w); loading := true; error := None |} /\
  sessionStorage w' = sessionStorage w.
Proof.
  intros Hk Ha. simpl.
  set (w2 := advance (6 * S k)
               (flat_map (fun j => [EvFetch (amountInThisRequest totalAmount j);
                                    EvDelay 5000]) (seq 0 (S k)))
               (announced w)).
  assert (tryBlock parseFromString env totalAmount (announced w)
          = (Throw AbortError, resume w2)) as H.
  { unfold tryBlock, bind.
    replace (Z.to_nat (numRequests totalAmount))
      with (S k + S (Z.to_nat (numRequests totalAmount) - S (S k)))%nat by lia.
    rewrite requestLoop_prefix.
    - fold w2. simpl. unfold bind, fetch.
      replace (aborted_by env (clock w2)) with true; [done |].
      symmetry. rewrite (aborted_by_at _ _ _ Hcancel). apply Nat.leb_le.
      unfold w2. simpl. lia.
    - intros j Hj. split; [apply Hacc; lia | lia].
    - intros c Hc. rewrite (aborted_by_at _ _ _ Hcancel). apply Nat.leb_gt.
      rewrite announced_clock, Hclock in Hc. lia. }
  rewrite (fetchFresh_after_failure _ _ _ _ _ _ H).
  rewrite catchBlock_quiet by done. simpl.
  rewrite finallyBlock_aborted.
  - simpl. repeat split; try done. by rewrite <- !app_assoc.
  - rewrite (aborted_by_at _ _ _ Hcancel). apply Nat.leb_le. simpl. lia.
Qed.

End CancelledTraces.

(* ===================================================================== *)
(** ** The statements of the specification *)
(* ===================================================================== *)

(** C1 (as amended).  For every successful run of the network path with
    [totalAmount > 0], the published questions are the decoded batches in
    arrival order: the records of batch [i] stand immediately before those
    of batch [i+1].  Their number is [totalAmount] whenever every response
    carries as many records as its request asked for; the code does not
    check the count. *)
Theorem fetch_success_batches_in_order parseFromString env totalAmount w :
  0 < totalAmount ->
  succeeds parseFromString env totalAmount w ->
  let n := Z.to_nat (numRequests totalAmount) in
  let batch i := map (decodeQuestion parseFromString) (batchRecords env i) in
  let published := questions (snap (snd (fetchFresh parseFromString env totalAmount w))) in
  published = concat (map batch (seq 0 n)) /\
  (honoursAmounts env totalAmount -> Z.of_nat (length published) = totalAmount) /\
  (forall i, (S i < n)%nat ->
     exists before after,
       published = before ++ batch i ++ batch (S i) ++ after).
Proof.
  intros Hpos Hsucc. simpl.
  destruct (success_outcome _ _ _ _ Hsucc) as (_ & Hq & _). simpl in Hq.
  rewrite Hq. split; [done |]. split.
  - intros Hh. by apply honoured_length.
  - intros i Hi.
    replace (Z.to_nat (numRequests totalAmount))
      with (i + (1 + (1 + (Z.to_nat (numRequests totalAmount) - S (S i)))))%nat by lia.
    rewrite !decodedBatches_app, !decodedBatches_one.
    replace (0 + i + 1)%nat with (S i) by lia.
    replace (0 + i)%nat with i by lia.
    by eexists _, _.
Qed.

Lemma fetch_success_batches_in_order_witness :
  Z.of_nat (length (questions (snap (snd
    (fetchFresh Dom.textContent (quietEnv (fullSource 80)) 80 mount))))) = 80.
Proof.
  apply (fetch_success_batches_in_order Dom.textContent (quietEnv (fullSource 80)) 80 mount).
  - lia.
  - vm_compute. reflexivity.
  - apply fullSource_honours. lia.
Defined.

(** C1, as the specification states it, fails: a source that answers with
    response code 0 and fewer records than requested makes the run
    succeed with fewer than [totalAmount] questions. *)
Lemma fetch_success_length_counterexample :
  ~ (forall parseFromString env totalAmount w,
       0 < totalAmount ->
       succeeds parseFromString env totalAmount w ->
       Z.of_nat (length (questions (snap (snd
         (fetchFresh parseFromString env totalAmount w))))) = totalAmount).
Proof.
  intros H.
  specialize (H Dom.textContent (quietEnv (shortSource 3)) 3 mount).
  vm_compute in H. by specialize (H eq_refl eq_refl).
Qed.

(** C2.  The plan for 80 is [50, 30].  For every [totalAmount > 0]: the
    number of requests is the ceiling of [totalAmount / 50]; every batch
    size is positive and at most 50; every batch but the last is 50 and
    the last is [totalAmount mod 50] unless that is zero, when it is 50
    too; the sizes sum to [totalAmount]; and a successful run puts exactly
    the requests of the plan on the network, in order. *)
Theorem batch_plan :
  requestPlan 80 = [50; 30] /\
  forall totalAmount,
    0 < totalAmount ->
    let n := numRequests totalAmount in
    50 * (n - 1) < totalAmount <= 50 * n /\
    Z.of_nat (length (requestPlan totalAmount)) = n /\
    (forall (i : nat) a,
       requestPlan totalAmount !! i = Some a ->
       0 < a <= 50 /\
       (Z.of_nat i < n - 1 -> a = 50) /\
       (Z.of_nat i = n - 1 ->
        a = if totalAmount mod 50 =? 0 then 50 else totalAmount mod 50)) /\
    sumZ (requestPlan totalAmount) = totalAmount /\
    (forall parseFromString env w,
       succeeds parseFromString env totalAmount w ->
       requestsIssued (trace (snd (fetchFresh parseFromString env totalAmount w))) =
         requestsIssued (trace w) ++ requestPlan totalAmount).
Proof.
  split; [by vm_compute |].
  intros totalAmount Hpos. simpl.
  pose proof (numRequests_bounds totalAmount Hpos) as Hb.
  split; [done |]. split; [rewrite plan_length; lia |]. split; [| split].
  - intros i a Hi. unfold requestPlan in Hi.
    rewrite list_lookup_fmap in Hi.
    destruct (seq 0 (Z.to_nat (numRequests totalAmount)) !! i) as [j |] eqn:Hj;
      [| done].
    apply lookup_seq in Hj as [-> Hlt]. simpl in Hi. simplify_eq.
    split; [by apply amount_range |]. split.
    + intros Hin. by apply amount_inner.
    + intros Hlast. rewrite amount_last by done.
      destruct (Z.eqb_spec (totalAmount mod 50) 0) as [Hm | Hm];
        unfold numRequests in *; Z.div_mod_to_equations; lia.
  - by apply plan_sum.
  - intros parseFromString env w Hsucc.
    destruct (success_outcome _ _ _ _ Hsucc) as (_ & _ & _ & _ & _ & tail & Htail & ->).
    rewrite !requestsIssued_app, requestsIssued_batches.
    destruct Htail as [-> | ->]; simpl; by rewrite app_nil_r.
Qed.

Lemma batch_plan_witness :
  0 < 80 /\ sumZ (requestPlan 80) = 80 /\
  requestsIssued (trace (snd
    (fetchFresh Dom.textContent (quietEnv (fullSource 80)) 80 mount))) = [50; 30].
Proof.
  destruct batch_plan as [_ H].
  destruct (H 80 ltac:(lia)) as (_ & _ & _ & Hsum & Hrun).
  split; [lia |]. split; [exact Hsum |].
  apply (Hrun Dom.textContent (quietEnv (fullSource 80)) mount).
  vm_compute. reflexivity.
Defined.

(** C3 (defect in the code).  Requested total 80, the source answers the
    first request in full, and [controller.abort()] lands after the body
    of batch 0 has arrived and before the code looks at the signal again
    (clock value 4).  The check before the delay throws
    [new Error('AbortError')], whose [name] is ["Error"]; the handler
    takes it for a failure and publishes the error ["AbortError"].  No
    second request is issued and nothing is written to the cache. *)
Theorem cancel_before_delay_publishes_error :
  let w' := useEffect Dom.textContent (cancelledEnv (fullSource 80) 4) 80 mount in
  error (snap w') = Some "AbortError" /\
  loading (snap w') = true /\
  requestsIssued (trace w') = [50] /\
  cacheWrites (trace w') = [] /\
  sessionStorage w' !! CACHE_KEY 80 = None.
Proof. vm_compute. done. Qed.

(** Cancellation that lands while the first request or its body is in
    flight (clock values 1 and 3) is silent, as is cancellation during the
    delay (clock value 5). *)
Example cancel_in_flight_is_silent :
  Forall (fun at_ =>
    let w' := useEffect Dom.textContent (cancelledEnv (fullSource 80) at_) 80 mount in
    error (snap w') = None /\ loading (snap w') = true /\
    requestsIssued (trace w') = [50] /\ cacheWrites (trace w') = [])
    [1%nat; 3%nat; 5%nat].
Proof. repeat constructor. Qed.

(** C4 (as amended).  For every run of the network path that fails with
    an error that is not abort-named, under a signal that is not aborted
    when the handler runs, the published snapshot has [loading = false],
    [error] = the failure's message, and the questions that were
    published before the run (none on first activation); nothing is
    written to the cache. *)
Theorem failure_publishes_error parseFromString env totalAmount w e w1 :
  tryBlock parseFromString env totalAmount (announced w) = (Throw e, w1) ->
  isAbort e = false ->
  aborted_by env (clock w1) = false ->
  let w' := snd (fetchFresh parseFromString env totalAmount w) in
  snap w' = {| questions := questions (snap w); loading := false;
               error := Some (reported e) |} /\
  sessionStorage w' = sessionStorage w.
Proof. apply failure_outcome. Qed.

Lemma failure_publishes_error_witness :
  snap (snd (fetchFresh Dom.textContent (quietEnv rejectingSource) 80 mount)) =
    {| questions := []; loading := false;
       error := Some "Trivia API Error Code: 5" |}.
Proof.
  refine (proj1 (failure_publishes_error Dom.textContent (quietEnv rejectingSource)
            80 mount (new_Error "Trivia API Error Code: 5")
            (snd (tryBlock Dom.textContent (quietEnv rejectingSource) 80
                    (announced mount))) _ _ _)).
  - vm_compute. reflexivity.
  - reflexivity.
  - reflexivity.
Defined.

(** C4, as the specification states it, fails: after a successful run for
    50 questions, a run for 80 that the source rejects with code 5 leaves
    the 50 earlier questions published next to the error. *)
Lemma failure_keeps_earlier_questions :
  let w1 := useEffect Dom.textContent (quietEnv (fullSource 50)) 50 mount in
  let w2 := useEffect Dom.textContent (quietEnv rejectingSource) 80 w1 in
  error (snap w2) = Some "Trivia API Error Code: 5" /\
  loading (snap w2) = false /\
  questions (snap w2) <> [] /\
  length (questions (snap w2)) = 50%nat.
Proof. vm_compute. repeat split; done. Qed.

(** C5 (as amended).  On first activation (nothing published yet: no
    questions, [loading = true], no error), for every run that is never
    cancelled and whose source, if it accepts every request of the plan,
    sends at least one record, the snapshot at the end of the run
    satisfies exactly one of: [loading = true], [error] non-null,
    questions populated; this covers every failing run.  On the network
    path, [loading] is set to [true] and [error] to [null] before
    anything else is done: before any request and before any publication
    of data.  The cache-hit path publishes the cached questions with
    [loading = false] and issues no request. *)
Theorem first_activation_settles parseFromString env totalAmount w :
  snap w = initialSnapshot ->
  cancelAt env = None ->
  ((forall j, (j < Z.to_nat (numRequests totalAmount))%nat -> accepted env j) ->
   received env totalAmount <> []) ->
  settled (snap (snd (fetchData parseFromString env totalAmount w))) /\
  (forall w0, exists rest,
     trace (snd (fetchFresh parseFromString env totalAmount w0)) =
       trace w0 ++ [EvSetLoading true; EvSetError None] ++ rest) /\
  (forall w0 qs,
     sessionStorage w0 !! CACHE_KEY totalAmount = Some (JsonArray qs) ->
     qs <> [] ->
     let w' := snd (fetchData parseFromString env totalAmount w0) in
     questions (snap w') = qs /\ loading (snap w') = false /\
     requestsIssued (trace w') = requestsIssued (trace w0)).
Proof.
  intros Hinit Hnever Hsome. split; [| split; [apply fetchFresh_trace |]].
  - unfold settled, exactlyOne, fetchData, bind.
    destruct (readCache_cases totalAmount w) as [(qs & Hne & ->) | (w0 & -> & Hs0 & Hc0)].
    + simpl. rewrite Hinit. simpl. right. right. repeat split; try done. congruence.
    + rewrite <- Hs0 in Hinit.
      destruct (tryBlock parseFromString env totalAmount (announced w0))
        as [[[] | e] w1] eqn:H.
      * assert (succeeds parseFromString env totalAmount w0) as Hsucc
          by (unfold succeeds; by rewrite H).
        destruct (success_outcome _ _ _ _ Hsucc) as (Hacc & Hq & He & Hl & _).
        simpl in *. rewrite Hq, He, Hl by done.
        right. right. repeat split; try done; try congruence.
        rewrite decodedBatches_map. intros Hnil.
        apply fmap_nil_inv in Hnil. by apply Hsome.
      * assert (isAbort e = false) as Hab.
        { destruct (isAbort e) eqn:Hab; [| done].
          apply tryBlock_Throw in H as (_ & _ & Habort & _).
          specialize (Habort Hab). by rewrite aborted_by_never in Habort. }
        destruct (failure_outcome _ _ _ _ _ _ H Hab (aborted_by_never _ _ Hnever))
          as [-> _].
        rewrite Hinit. simpl. right. left. repeat split; try done. congruence.
  - intros w0 qs Hlook Hne. simpl. unfold fetchData, bind.
    rewrite (readCache_hit totalAmount w0 qs Hlook Hne). simpl.
    repeat split; try done.
    rewrite !requestsIssued_app. simpl. by rewrite !app_nil_r.
Qed.

Lemma first_activation_settles_witness :
  settled (snap (snd (fetchData Dom.textContent (quietEnv rejectingSource) 80 mount))).
Proof.
  apply (first_activation_settles Dom.textContent (quietEnv rejectingSource) 80 mount).
  - reflexivity.
  - reflexivity.
  - intros Hacc. exfalso.
    destruct (Hacc O) as (r & data & Ht & _ & Hb & Hc).
    + vm_compute. lia.
    + injection Ht as <-. injection Hb as <-. discriminate Hc.
Defined.

(** C5, as the specification states it, fails.  A run for 50 succeeds and
    fills the cache, a run for 80 is rejected by the source, and the
    requested total goes back to 50.  The third run returns from the
    cache: it publishes the questions and [loading = false] without
    setting [loading] to [true] or resetting the error first, and the
    consumer observes the error of the second run next to the data. *)
Lemma cache_hit_keeps_earlier_error :
  let w1 := useEffect Dom.textContent (quietEnv (fullSource 50)) 50 mount in
  let w2 := useEffect Dom.textContent (quietEnv rejectingSource) 80 w1 in
  let w3 := useEffect Dom.textContent (quietEnv (fullSource 50)) 50 w2 in
  trace w3 = [EvSetQuestions (questions (snap w1)); EvSetLoading false] /\
  error (snap w3) = Some "Trivia API Error Code: 5" /\
  questions (snap w3) <> [] /\
  ~ settled (snap w3).
Proof.
  vm_compute. repeat split; try done.
  intros [(H & _) | [(_ & _ & H) | (_ & H & _)]].
  - discriminate.
  - by apply H.
  - by apply H.
Qed.

(** C6 (as amended).  For every run that fetches all batches, a failure
    of the final cache write is not swallowed: it reaches the handler of
    the run like any other failure.  Under a signal that is not aborted,
    the store's message is published as [error] with [loading = false],
    the assembled questions are not published, and the store is left as
    it was. *)
Theorem cache_write_failure_is_published parseFromString env totalAmount w all wl :
  requestLoop parseFromString env totalAmount
    (Z.to_nat (numRequests totalAmount)) O [] (announced w) = (Normal all, wl) ->
  quotaExceeded env = true ->
  aborted_by env (clock wl) = false ->
  let w' := snd (fetchFresh parseFromString env totalAmount w) in
  snap w' = {| questions := questions (snap w); loading := false;
               error := Some "The quota has been exceeded." |} /\
  sessionStorage w' = sessionStorage w /\
  cacheWrites (trace w') = cacheWrites (trace w).
Proof.
  intros Hloop Hq Hquiet. simpl.
  assert (tryBlock parseFromString env totalAmount (announced w)
          = (Throw QuotaExceededError, wl)) as H.
  { unfold tryBlock. unfold_js. by rewrite Hloop, Hq. }
  rewrite (fetchFresh_after_failure _ _ _ _ _ _ H).
  apply requestLoop_frame in Hloop as (Hs & Hst & _ & evs & Htr & Hw).
  rewrite catchBlock_loud by done.
  rewrite finallyBlock_quiet by done. simpl.
  rewrite Hs, Hst, Htr, announced_trace. repeat split; try done.
  unfold cacheWrites in *. rewrite !omap_app, Hw. simpl. by rewrite !app_nil_r.
Qed.

Lemma cache_write_failure_is_published_witness :
  snap (snd (fetchFresh Dom.textContent (fullStoreEnv (fullSource 80)) 80 mount)) =
    {| questions := []; loading := false;
       error := Some "The quota has been exceeded." |}.
Proof.
  refine (proj1 (cache_write_failure_is_published Dom.textContent
            (fullStoreEnv (fullSource 80)) 80 mount
            (decodedBatches Dom.textContent (fullStoreEnv (fullSource 80)) 0 2)
            (snd (requestLoop Dom.textContent (fullStoreEnv (fullSource 80)) 80
                    2 O [] (announced mount))) _ _ _)).
  - vm_compute. reflexivity.
  - reflexivity.
  - reflexivity.
Defined.

(** C6, as the specification states it, fails: with a store that refuses
    the write, a run whose two batches were fetched in full ends with an
    error and without questions. *)
Lemma cache_write_failure_counterexample :
  let w' := useEffect Dom.textContent (fullStoreEnv (fullSource 80)) 80 mount in
  requestsIssued (trace w') = [50; 30] /\
  error (snap w') = Some "The quota has been exceeded." /\
  questions (snap w') = [].
Proof. vm_compute. done. Qed.

(** C7 (as amended).  For every successful run, each published record is
    the image of the record received at the same position: [category],
    [question], [correct_answer] and every element of
    [incorrect_answers] are the decoder's output on the raw field, while
    [type] and [difficulty] are passed on as received. *)
Theorem published_fields_decoded parseFromString env totalAmount w :
  succeeds parseFromString env totalAmount w ->
  Forall2
    (fun pub raw =>
       category pub = decodeHtml parseFromString (category raw) /\
       question pub = decodeHtml parseFromString (question raw) /\
       correct_answer pub = decodeHtml parseFromString (correct_answer raw) /\
       incorrect_answers pub =
         map (decodeHtml parseFromString) (incorrect_answers raw) /\
       type pub = type raw /\
       difficulty pub = difficulty raw)
    (questions (snap (snd (fetchFresh parseFromString env totalAmount w))))
    (received env totalAmount).
Proof.
  intros Hsucc.
  destruct (success_outcome _ _ _ _ Hsucc) as (_ & Hq & _). simpl in Hq.
  rewrite Hq, decodedBatches_map. unfold received.
  generalize (concat (map (batchRecords env)
                (seq 0 (Z.to_nat (numRequests totalAmount))))) as raws.
  induction raws as [| raw raws IH]; simpl; constructor; [by simpl | done].
Qed.

Lemma published_fields_decoded_witness :
  Forall2 (fun pub raw => category pub = decodeHtml Dom.textContent (category raw))
    (questions (snap (snd
       (fetchFresh Dom.textContent (quietEnv (fullSource 80)) 80 mount))))
    (received (quietEnv (fullSource 80)) 80).
Proof.
  eapply Forall2_impl.
  - apply (published_fields_decoded Dom.textContent (quietEnv (fullSource 80)) 80 mount).
    vm_compute. reflexivity.
  - intros pub raw (H & _). exact H.
Defined.

(** C7, as the specification states it, fails for the [type] field: a
    record received with the type ["A &amp; B"] is published with that
    very text, which the decoder would turn into ["A & B"]. *)
Lemma published_type_not_decoded :
  let w' := useEffect Dom.textContent (quietEnv (fullSource 1)) 1 mount in
  succeeds Dom.textContent (quietEnv (fullSource 1)) 1 mount /\
  map type (questions (snap w')) = ["A &amp; B"] /\
  Dom.occurs "&" "A &amp; B" = true /\
  decodeHtml Dom.textContent "A &amp; B" = "A & B".
Proof. vm_compute. done. Qed.




(** C9 (as amended).  The signal is observed by every network call and
    by the check before the inter-batch delay, but not during the delay:
    the timer takes no signal.  In a run whose batches [0, ..., k] are
    accepted, by the clock value [a] at which cancellation lands:
    - [a = 0], before the first call: the call puts no request on the
      network and the run resolves silently;
    - [6k+1 <= a <= 6k+3], while request [k] or its body is in flight or
      between the two: request [k] is the last event of the network, no
      delay follows, and the run resolves silently;
    - [a = 6k+4], between the arrival of batch [k], not the last, and the
      check before the delay: the delay is not started and no request
      [k+1] is issued;
    - [6k+5 <= a <= 6k+6], during the delay after batch [k] or once it
      has elapsed: the delay runs for its full 5000 ms, the next call
      puts no request on the network, and the run resolves silently with
      [error] null and [loading] true.
    In none of the four is anything written to the cache. *)
Theorem delay_is_not_abortable parseFromString env totalAmount w (k a : nat) :
  (k < Z.to_nat (numRequests totalAmount))%nat ->
  (forall j, (j <= k)%nat -> accepted env j) ->
  cancelAt env = Some a ->
  clock w = O ->
  let w' := snd (fetchFresh parseFromString env totalAmount w) in
  let announcement := [EvSetLoading true; EvSetError None] in
  let completed m :=
    flat_map (fun j => [EvFetch (amountInThisRequest totalAmount j); EvDelay 5000])
             (seq 0 m) in
  let request j := EvFetch (amountInThisRequest totalAmount j) in
  (a = O ->
   trace w' = trace w ++ announcement /\
   error (snap w') = None /\ sessionStorage w' = sessionStorage w) /\
  ((6 * k + 1 <= a <= 6 * k + 3)%nat ->
   trace w' = trace w ++ announcement ++ completed k ++ [request k] /\
   error (snap w') = None /\ sessionStorage w' = sessionStorage w) /\
  ((S k < Z.to_nat (numRequests totalAmount))%nat -> a = (6 * k + 4)%nat ->
   trace w' = trace w ++ announcement ++ completed k
                ++ [request k; EvSetError (Some "AbortError")] /\
   sessionStorage w' = sessionStorage w) /\
  ((S k < Z.to_nat (numRequests totalAmount))%nat ->
   (6 * k + 5 <= a <= 6 * k + 6)%nat ->
   trace w' = trace w ++ announcement ++ completed (S k) /\
   error (snap w') = None /\ loading (snap w') = true /\
   sessionStorage w' = sessionStorage w).
Proof.
  intros Hk Hacc Hcancel Hclock. simpl.
  split; [| split; [| split]].
  - intros Ha.
    destruct (cancel_before_first_call parseFromString env totalAmount w a
                Hcancel Hclock Ha ltac:(lia)) as (Htr & Hs & Hst).
    simpl in Htr, Hs, Hst. by rewrite Htr, Hs, Hst.
  - intros Ha.
    destruct (cancel_in_flight_trace parseFromString env totalAmount w a
                Hcancel Hclock k Hacc Hk Ha) as (Htr & Hs & Hst).
    simpl in Htr, Hs, Hst. by rewrite Htr, Hs, Hst.
  - intros Hk' Ha.
    apply (cancel_at_check_trace parseFromString env totalAmount w a
             Hcancel Hclock k Hacc Hk' Ha).
  - intros Hk' Ha.
    destruct (cancel_in_delay_trace parseFromString env totalAmount w a
                Hcancel Hclock k Hacc Hk' Ha) as (Htr & Hs & Hst).
    simpl in Htr, Hs, Hst. by rewrite Htr, Hs, Hst.
Qed.

Lemma delay_is_not_abortable_witness :
  trace (snd (fetchFresh Dom.textContent (cancelledEnv (fullSource 80) 5) 80 mount)) =
    [EvSetLoading true; EvSetError None; EvFetch 50; EvDelay 5000].
Proof.
  refine (proj1 (proj2 (proj2 (proj2
    (delay_is_not_abortable Dom.textContent (cancelledEnv (fullSource 80) 5) 80
       mount 0 5 _ _ _ _))) _ _)).
  - vm_compute. lia.
  - intros j Hj. assert (j = O) as -> by lia.
    eexists _, _. repeat split; reflexivity.
  - reflexivity.
  - reflexivity.
  - vm_compute. lia.
  - lia.
Defined.

(** C9, as the specification states it, fails: the delay is not
    abortable.  With cancellation landing during the delay after batch 0
    (clock value 5) the delay still runs for its 5000 ms, and the run ends
    in the very world it ends in when cancellation lands only once the
    delay has elapsed (clock value 6). *)
Lemma cancel_during_delay_counterexample :
  let during := useEffect Dom.textContent (cancelledEnv (fullSource 80) 5) 80 mount in
  let after := useEffect Dom.textContent (cancelledEnv (fullSource 80) 6) 80 mount in
  delaysElapsed (trace during) = [5000] /\
  during = after.
Proof. vm_compute. done. Qed.

(** C10 (as amended).  For every run whose cache entry under the key of
    the requested total is a non-empty text that cannot be parsed, the
    run removes the entry and then takes the network path, exactly as a
    run over the store without the entry does, and [fetchData] completes
    normally.  With [totalAmount > 0] and a signal that is quiet at the
    start, the removal, the announcement and the request for batch zero
    are the first events of the run; against a source that accepts every
    request, never cancelled and with a store that takes the write, the
    run issues the whole plan, publishes the decoded batches with no
    error and stores them under the key.  An empty stored text sends the
    run down the network path as well, but is not removed. *)
Theorem corrupt_cache_refetches parseFromString env totalAmount w :
  let key := CACHE_KEY totalAmount in
  let n := Z.to_nat (numRequests totalAmount) in
  let w' := snd (fetchData parseFromString env totalAmount w) in
  (forall raw,
     sessionStorage w !! key = Some (Unparseable raw) ->
     let w0 := snd (removeItem key w) in
     fetchData parseFromString env totalAmount w =
       fetchFresh parseFromString env totalAmount w0 /\
     sessionStorage w0 = delete key (sessionStorage w) /\
     snap w0 = snap w /\
     fst (fetchData parseFromString env totalAmount w) = Normal tt /\
     (0 < totalAmount -> aborted_by env (clock w) = false ->
      exists rest,
        trace w' =
          trace w ++ [EvRemoveItem key; EvSetLoading true; EvSetError None;
                      EvFetch (amountInThisRequest totalAmount 0)] ++ rest) /\
     (cancelAt env = None -> quotaExceeded env = false ->
      (forall j, (j < n)%nat -> accepted env j) ->
      snap w' = {| questions := decodedBatches parseFromString env 0 n;
                   loading := false; error := None |} /\
      requestsIssued (trace w') = requestsIssued (trace w) ++ requestPlan totalAmount /\
      sessionStorage w' !! key =
        Some (JsonArray (decodedBatches parseFromString env 0 n)))) /\
  (sessionStorage w !! key = Some EmptyText ->
   fetchData parseFromString env totalAmount w =
     fetchFresh parseFromString env totalAmount w).
Proof.
  simpl. split.
  - intros raw H.
    assert (fetchData parseFromString env totalAmount w =
            fetchFresh parseFromString env totalAmount
              (snd (removeItem (CACHE_KEY totalAmount) w))) as Heq.
    { unfold fetchData, bind. by rewrite (readCache_corrupt _ _ _ H). }
    rewrite Heq. split; [done |]. split; [done |]. split; [done |].
    split; [apply fetchFresh_Normal |]. split.
    + intros Hpos H0.
      destruct (fetchFresh_first_request parseFromString env totalAmount
                  (snd (removeItem (CACHE_KEY totalAmount) w)) Hpos H0) as [rest ->].
      exists rest. simpl. by rewrite <- !app_assoc.
    + intros Hnever Hq Hacc.
      assert (trace (snd (removeItem (CACHE_KEY totalAmount) w)) =
              trace w ++ [EvRemoveItem (CACHE_KEY totalAmount)]) as Htr0 by done.
      remember (snd (removeItem (CACHE_KEY totalAmount) w)) as w0 eqn:Hw0.
      pose proof (accepted_run_succeeds parseFromString env totalAmount
                    w0 Hnever Hq Hacc) as Hsucc.
      destruct (success_outcome _ _ _ _ Hsucc)
        as (_ & Hqs & He & Hl & Hst & tail & Htail & Htr).
      cbv zeta in Hqs, He, Hl, Hst, Htr. specialize (Hl Hnever).
      split; [| split].
      * destruct (snap (snd (fetchFresh parseFromString env totalAmount w0)))
          as [qs l e]. simpl in *. by subst.
      * rewrite Htr, Htr0, !requestsIssued_app, requestsIssued_batches.
        unfold requestPlan.
        destruct Htail as [-> | ->]; simpl; by rewrite !app_nil_r.
      * rewrite Hst. apply lookup_insert_eq.
  - intros H. unfold fetchData, readCache. unfold_js. by rewrite H.
Qed.

Lemma corrupt_cache_refetches_witness :
  requestsIssued (trace (snd
    (fetchData Dom.textContent (quietEnv (fullSource 80)) 80
       (store {[ CACHE_KEY 80 := Unparseable "[{" ]} mount)))) = [50; 30].
Proof.
  destruct (corrupt_cache_refetches Dom.textContent (quietEnv (fullSource 80)) 80
              (store {[ CACHE_KEY 80 := Unparseable "[{" ]} mount)) as [H _].
  destruct (H "[{") as (_ & _ & _ & _ & _ & Hrun).
  { vm_compute. reflexivity. }
  destruct Hrun as (_ & Hreq & _).
  - reflexivity.
  - reflexivity.
  - intros j Hj. assert (j = O \/ j = 1%nat) as [-> | ->] by (vm_compute in Hj; lia).
    + eexists _, _. repeat split; reflexivity.
    + eexists _, _. repeat split; reflexivity.
  - exact Hreq.
Defined.

(** C10, as the specification states it, fails for the empty stored
    text: [JSON.parse] rejects it, but the truthiness test before the
    [try] skips it, so a run that the source rejects leaves the entry
    where it was and removes nothing. *)
Lemma empty_cache_entry_is_kept :
  let w := store {[ CACHE_KEY 80 := EmptyText ]} mount in
  let w' := useEffect Dom.textContent (quietEnv rejectingSource) 80 w in
  fst (JSON_parse EmptyText w) = Throw (SyntaxError "Unexpected end of JSON input") /\
  trace w' = [EvSetLoading true; EvSetError None; EvFetch 50;
              EvSetError (Some "Trivia API Error Code: 5"); EvSetLoading false] /\
  sessionStorage w' !! CACHE_KEY 80 = Some EmptyText.
Proof. vm_compute. done. Qed.

(** The corrupt entry is gone before the first request, and the refetch
    stores the fresh collection under the same key. *)
Example corrupt_cache_run :
  let w := store {[ CACHE_KEY 80 := Unparseable "[{" ]} mount in
  let w' := useEffect Dom.textContent (quietEnv (fullSource 80)) 80 w in
  take 4 (trace w') =
    [EvRemoveItem "triviaDataCache_80"; EvSetLoading true; EvSetError None; EvFetch 50] /\
  error (snap w') = None /\
  length (questions (snap w')) = 80%nat /\
  sessionStorage w' !! "triviaDataCache_80" = Some (JsonArray (questions (snap w'))).
Proof. vm_compute. done. Qed.

(* ===================================================================== *)
(** ** Further properties of a run *)
(* ===================================================================== *)

Lemma networkActivity_app tr1 tr2 :
  networkActivity (tr1 ++ tr2) = networkActivity tr1 ++ networkActivity tr2.
Proof. unfold networkActivity. apply omap_app. Qed.

Lemma networkActivity_batches totalAmount (l : list nat) :
  networkActivity (flat_map (batchEvents totalAmount) l) =
    flat_map (batchEvents totalAmount) l.
Proof.
  induction l as [| j l IH]; [done |].
  change (flat_map (batchEvents totalAmount) (j :: l))
    with (batchEvents totalAmount j ++ flat_map (batchEvents totalAmount) l).
  rewrite networkActivity_app, IH. f_equal.
  unfold batchEvents. by destruct (Z.of_nat j <? numRequests totalAmount - 1).
Qed.

Lemma requestLoop_activity parseFromString env totalAmount remaining :
  forall i acc w res w',
    requestLoop parseFromString env totalAmount remaining i acc w = (res, w') ->
    exists evs,
      trace w' = trace w ++ evs /\
      networkActivity evs = evs /\
      evs `prefix_of` flat_map (batchEvents totalAmount) (seq i remaining).
Proof.
  induction remaining as [| remaining IH]; intros i acc w res w' H.
  - simpl in H. unfold ret in H. simplify_eq. exists []. by rewrite app_nil_r.
  - change (flat_map (batchEvents totalAmount) (seq i (S remaining)))
      with (batchEvents totalAmount i
              ++ flat_map (batchEvents totalAmount) (seq (S i) remaining)).
    unfold batchEvents at 1.
    simpl in H. unfold_js. simpl in H.
    destruct (Z.of_nat i <? numRequests totalAmount - 1) eqn:Hlast.
    all: repeat case_match; simplify_eq; simpl.
    all: try (apply IH in H as (evs & -> & Hn & Hp); simpl;
              rewrite <- ?app_assoc; simpl; eexists; split; [done |];
              split; [simpl; by rewrite Hn | repeat apply prefix_cons; done]).
    all: try (exists []; split; [by rewrite app_nil_r |];
              split; [done | apply prefix_nil]).
    all: try (eexists [_]; split; [done |];
              split; [done | apply prefix_cons, prefix_nil]).
Qed.

Section RunFacts.

Variable parseFromString : string -> option string.
Variable env : Env.
Variable totalAmount : Z.

(** The cache check touches no other key, the network not at all. *)
Lemma readCache_frame w res w0 :
  readCache totalAmount w = (res, w0) ->
  (exists b, res = Normal b) /\
  networkActivity (trace w0) = networkActivity (trace w) /\
  clock w0 = clock w /\
  forall key, key <> CACHE_KEY totalAmount ->
    sessionStorage w0 !! key = sessionStorage w !! key.
Proof.
  unfold readCache. unfold_js. intros H.
  destruct (sessionStorage w !! CACHE_KEY totalAmount) as [[| raw | | qs | raw] |];
    simpl in H; try destruct qs; simpl in H; simplify_eq; simpl.
  all: rewrite ?networkActivity_app; simpl; rewrite ?app_nil_r.
  all: repeat split; eauto.
  all: intros key Hkey; by rewrite lookup_delete_ne.
Qed.

Lemma fetchFresh_frame w :
  let w' := snd (fetchFresh parseFromString env totalAmount w) in
  (exists evs,
     networkActivity (trace w') = networkActivity (trace w) ++ evs /\
     evs `prefix_of` flat_map (batchEvents totalAmount)
                       (seq 0 (Z.to_nat (numRequests totalAmount)))) /\
  (forall key, key <> CACHE_KEY totalAmount ->
     sessionStorage w' !! key = sessionStorage w !! key) /\
  (cancelAt env = None -> loading (snap w') = false).
Proof.
  simpl.
  destruct (tryBlock parseFromString env totalAmount (announced w))
    as [[[] | e] w1] eqn:H.
  - rewrite (fetchFresh_after_success _ _ _ _ _ H).
    apply tryBlock_Normal in H as (all & wl & Hloop & Hq & Hs1 & Hst1 & Hc1 & Htr1).
    pose proof (requestLoop_frame _ _ _ _ _ _ _ _ _ Hloop) as (_ & Hst & _).
    apply requestLoop_activity in Hloop as (evs & Htr & Hn & Hp).
    rewrite announced_trace in Htr. rewrite announced_storage in Hst.
    assert (networkActivity (trace w1) = networkActivity (trace w) ++ evs) as Hact.
    { rewrite Htr1, Htr, !networkActivity_app, Hn. simpl. by rewrite !app_nil_r. }
    split; [| split].
    + exists evs. split; [| done].
      unfold finallyBlock. unfold_js.
      case_match; simpl; rewrite ?networkActivity_app, Hact; simpl;
        by rewrite ?app_nil_r.
    + intros key Hkey. unfold finallyBlock. unfold_js.
      case_match; simpl; rewrite Hst1, Hst; by rewrite lookup_insert_ne.
    + intros Hnever. rewrite finallyBlock_quiet; [done |].
      by apply aborted_by_never.
  - rewrite (fetchFresh_after_failure _ _ _ _ _ _ H).
    unfold tryBlock in H. unfold bind in H.
    destruct (requestLoop parseFromString env totalAmount
                (Z.to_nat (numRequests totalAmount)) 0 [] (announced w))
      as [[all | e'] wl] eqn:Hloop.
    + unfold_js. destruct (quotaExceeded env); [| done]. simplify_eq.
      pose proof (requestLoop_frame _ _ _ _ _ _ _ _ _ Hloop) as (_ & Hst & _).
      apply requestLoop_activity in Hloop as (evs & Htr & Hn & Hp).
      rewrite announced_trace in Htr. rewrite announced_storage in Hst.
      simpl. split; [| split].
      * exists evs. split; [| done].
        unfold finallyBlock. unfold_js. case_match; simpl;
          rewrite Htr, !networkActivity_app, Hn; simpl; by rewrite !app_nil_r.
      * intros key Hkey. unfold finallyBlock. unfold_js.
        case_match; simpl; by rewrite Hst.
      * intros Hnever. unfold finallyBlock. unfold_js. simpl.
        by rewrite aborted_by_never.
    + simplify_eq.
      pose proof (requestLoop_frame _ _ _ _ _ _ _ _ _ Hloop) as (_ & Hst & _).
      apply requestLoop_activity in Hloop as (evs & Htr & Hn & Hp).
      rewrite announced_trace in Htr. rewrite announced_storage in Hst.
      split; [| split].
      * exists evs. split; [| done].
        unfold finallyBlock. unfold_js.
        destruct e as [name message |]; simpl; repeat case_match; simpl;
          rewrite Htr, !networkActivity_app, Hn; simpl; by rewrite !app_nil_r.
      * intros key Hkey. unfold finallyBlock. unfold_js.
        destruct e as [name message |]; simpl; repeat case_match; simpl;
          by rewrite Hst.
      * intros Hnever. rewrite finallyBlock_quiet; [done |].
        by apply aborted_by_never.
Qed.

End RunFacts.

Lemma requestsIssued_networkActivity tr :
  requestsIssued (networkActivity tr) = requestsIssued tr.
Proof.
  induction tr as [| ev tr IH]; [done |].
  destruct ev; simpl; by rewrite ?IH.
Qed.

Lemma requestsIssued_prefix evs l :
  evs `prefix_of` l -> requestsIssued evs `prefix_of` requestsIssued l.
Proof. intros [k ->]. rewrite requestsIssued_app. by eexists. Qed.

Lemma CACHE_KEY_inj a b : CACHE_KEY a = CACHE_KEY b -> a = b.
Proof.
  unfold CACHE_KEY. intros H.
  apply (inj (String.app "triviaDataCache_")) in H.
  by apply (inj pretty) in H.
Qed.

(** X1.  [fetchData] never throws: whatever the store holds, whatever
    the source answers and whenever the signal goes off, the promise of
    the effect is fulfilled, never rejected. *)
Theorem fetchData_never_throws parseFromString env totalAmount w :
  fst (fetchData parseFromString env totalAmount w) = Normal tt.
Proof.
  unfold fetchData, bind.
  destruct (readCache_cases totalAmount w) as [(qs & _ & ->) | (w0 & -> & _)].
  - done.
  - apply fetchFresh_Normal.
Qed.

(** X2.  A run that is never cancelled always ends with
    [loading = false], whether it returned from the cache, succeeded or
    failed. *)
Theorem uncancelled_run_stops_loading parseFromString env totalAmount w :
  cancelAt env = None ->
  loading (snap (snd (fetchData parseFromString env totalAmount w))) = false.
Proof.
  intros Hnever. unfold fetchData, bind.
  destruct (readCache_cases totalAmount w) as [(qs & _ & ->) | (w0 & -> & _)].
  - done.
  - by apply fetchFresh_frame.
Qed.

Lemma uncancelled_run_stops_loading_witness :
  loading (snap (snd
    (fetchData Dom.textContent (quietEnv rejectingSource) 80 mount))) = false.
Proof. apply uncancelled_run_stops_loading. reflexivity. Defined.


(** X3.  Whatever its outcome, a run touches the network and the timer
    only along the plan: what it adds to the trace is a prefix of
    "request, 5000 ms delay, request, ..., last request" with the amounts
    of the plan, so it never issues more requests than the plan has, never
    another amount, and never two requests without the delay between
    them. *)
Theorem network_activity_follows_plan parseFromString env totalAmount w :
  let w' := snd (fetchData parseFromString env totalAmount w) in
  exists evs,
    networkActivity (trace w') = networkActivity (trace w) ++ evs /\
    evs `prefix_of` flat_map (batchEvents totalAmount)
                      (seq 0 (Z.to_nat (numRequests totalAmount))) /\
    requestsIssued (trace w') = requestsIssued (trace w) ++ requestsIssued evs /\
    requestsIssued evs `prefix_of` requestPlan totalAmount.
Proof.
  simpl. unfold fetchData, bind.
  destruct (readCache totalAmount w) as [res w0] eqn:Hr.
  destruct (readCache_frame _ _ _ _ Hr) as ([b ->] & Hact & _).
  assert (forall w' evs,
    networkActivity (trace w') = networkActivity (trace w) ++ evs ->
    evs `prefix_of` flat_map (batchEvents totalAmount)
                      (seq 0 (Z.to_nat (numRequests totalAmount))) ->
    requestsIssued (trace w') = requestsIssued (trace w) ++ requestsIssued evs /\
    requestsIssued evs `prefix_of` requestPlan totalAmount) as Hreq.
  { intros w' evs Hevs Hp. split.
    - rewrite <- requestsIssued_networkActivity, Hevs, requestsIssued_app.
      by rewrite requestsIssued_networkActivity.
    - unfold requestPlan. rewrite <- requestsIssued_batches.
      by apply requestsIssued_prefix. }
  destruct b; simpl.
  - exists []. rewrite Hact, app_nil_r.
    split; [done |]. split; [apply prefix_nil |].
    apply Hreq; [by rewrite app_nil_r | apply prefix_nil].
  - destruct (fetchFresh_frame parseFromString env totalAmount w0)
      as ((evs & Hevs & Hp) & _).
    rewrite Hact in Hevs. exists evs. split; [done |]. split; [done |].
    by apply Hreq.
Qed.

(** X4.  A run for one requested total leaves the cache entry of every
    other total as it found it. *)
Theorem other_totals_keep_their_entry parseFromString env totalAmount other w :
  other <> totalAmount ->
  sessionStorage (snd (fetchData parseFromString env totalAmount w))
    !! CACHE_KEY other = sessionStorage w !! CACHE_KEY other.
Proof.
  intros Hother.
  assert (CACHE_KEY other <> CACHE_KEY totalAmount) as Hkey
    by (intros H; by apply CACHE_KEY_inj in H).
  unfold fetchData, bind.
  destruct (readCache totalAmount w) as [res w0] eqn:Hr.
  destruct (readCache_frame _ _ _ _ Hr) as ([b ->] & _ & _ & Hst).
  destruct b; simpl.
  - by apply Hst.
  - destruct (fetchFresh_frame parseFromString env totalAmount w0) as (_ & Hst' & _).
    simpl in Hst'. rewrite Hst' by done. by apply Hst.
Qed.

Lemma other_totals_keep_their_entry_witness :
  sessionStorage (snd
    (fetchData Dom.textContent (quietEnv (fullSource 80)) 80
       (store {[ CACHE_KEY 50 := JsonArray sampleQuestions ]} mount)))
    !! CACHE_KEY 50 = Some (JsonArray sampleQuestions).
Proof.
  refine (eq_trans
    (other_totals_keep_their_entry Dom.textContent (quietEnv (fullSource 80)) 80 50
       (store {[ CACHE_KEY 50 := JsonArray sampleQuestions ]} mount) _) _).
  - lia.
  - vm_compute. reflexivity.
Defined.


Section MoreRunFacts.

Variable parseFromString : string -> option string.
Variable env : Env.
Variable totalAmount : Z.

Lemma requestLoop_refused remaining i acc w msg :
  refusal (transport env i) = Some msg ->
  aborted_by env (3 + clock w) = false ->
  exists e c,
    requestLoop parseFromString env totalAmount (S remaining) i acc w =
      (Throw e, advance c [EvFetch (amountInThisRequest totalAmount i)] w) /\
    isAbort e = false /\ reported e = msg.
Proof.
  intros Href H3.
  pose proof (aborted_by_mono _ _ (clock w) H3 ltac:(lia)) as H0.
  pose proof (aborted_by_mono _ _ (S (clock w)) H3 ltac:(lia)) as H1.
  simpl in H3. unfold refusal in Href.
  simpl. unfold_js. rewrite H0, H1.
  destruct (transport env i) as [message | r].
  - simplify_eq. by exists (TypeError msg), 2%nat.
  - destruct (negb (ok r)) eqn:Hok; simpl.
    + simplify_eq. by eexists (new_Error _), 2%nat.
    + rewrite H3. destruct (body r) as [message | data].
      * simplify_eq. by exists (SyntaxError msg), 4%nat.
      * destruct (negb (response_code data =? 0)) eqn:Hc; [| done].
        simplify_eq. by eexists (new_Error _), 4%nat.
Qed.

Lemma requestLoop_Normal_quiet remaining :
  forall i acc w qs w',
    requestLoop parseFromString env totalAmount remaining i acc w = (Normal qs, w') ->
    (i + remaining = Z.to_nat (numRequests totalAmount))%nat ->
    (1 <= remaining)%nat ->
    aborted_by env (6 * (remaining - 1) + 3 + clock w) = false.
Proof.
  induction remaining as [| remaining IH]; intros i acc w qs w' H Hn Hpos; [lia |].
  destruct (requestLoop_Normal_head _ _ _ _ _ _ _ _ _ H) as (Hacc & H3 & H4).
  destruct remaining as [| remaining].
  - exact H3.
  - assert ((Z.of_nat i <? numRequests totalAmount - 1) = true) as Hlt
      by (apply Z.ltb_lt; lia).
    rewrite requestLoop_step in H by auto. rewrite Hlt in H.
    apply IH in H; [| lia | lia]. simpl in H.
    eapply aborted_by_mono; [exact H | lia].
Qed.

End MoreRunFacts.

(** X5.  In a run that is never cancelled, when the requests before
    index [k] are accepted and request [k] is refused, the message of that
    refusal is published as the error with [loading = false], the
    questions and the store are left as they were, and exactly the
    requests [0, ..., k] have been issued: the first failure ends the
    run. *)
Theorem first_failure_is_reported parseFromString env totalAmount w (k : nat) msg :
  (k < Z.to_nat (numRequests totalAmount))%nat ->
  (forall j, (j < k)%nat -> accepted env j) ->
  refusal (transport env k) = Some msg ->
  cancelAt env = None ->
  let w' := snd (fetchFresh parseFromString env totalAmount w) in
  snap w' = {| questions := questions (snap w); loading := false;
               error := Some msg |} /\
  sessionStorage w' = sessionStorage w /\
  requestsIssued (trace w') =
    requestsIssued (trace w) ++ map (amountInThisRequest totalAmount) (seq 0 (S k)).
Proof.
  intros Hk Hacc Href Hnever. simpl.
  set (w1 := advance (6 * k)
               (flat_map (fun j => [EvFetch (amountInThisRequest totalAmount j);
                                    EvDelay 5000]) (seq 0 k))
               (announced w)).
  destruct (requestLoop_refused parseFromString env totalAmount
              (Z.to_nat (numRequests totalAmount) - S k) k
              ([] ++ decodedBatches parseFromString env 0 k) w1 msg Href
              (aborted_by_never _ _ Hnever))
    as (e & c & Hstep & Hab & Hrep).
  assert (tryBlock parseFromString env totalAmount (announced w)
          = (Throw e, advance c [EvFetch (amountInThisRequest totalAmount k)] w1)) as H.
  { unfold tryBlock, bind.
    replace (Z.to_nat (numRequests totalAmount))
      with (k + S (Z.to_nat (numRequests totalAmount) - S k))%nat by lia.
    rewrite requestLoop_prefix.
    - fold w1. simpl Nat.add. by rewrite Hstep.
    - intros j Hj. split; [apply Hacc; lia | lia].
    - intros c' _. by apply aborted_by_never. }
  destruct (failure_outcome _ _ _ _ _ _ H Hab (aborted_by_never _ _ Hnever))
    as [Hs Hst].
  simpl in Hs, Hst. rewrite Hs, Hst, Hrep. split; [done |]. split; [done |].
  rewrite (fetchFresh_after_failure _ _ _ _ _ _ H).
  rewrite catchBlock_loud by done.
  rewrite finallyBlock_quiet by (by apply aborted_by_never). simpl.
  change (amountInThisRequest totalAmount 0
            :: map (amountInThisRequest totalAmount) (seq 1 k))
    with (map (amountInThisRequest totalAmount) (seq 0 (S k))).
  rewrite !requestsIssued_app, requestsIssued_delayed, seq_S, map_app. simpl.
  by rewrite !app_nil_r, <- app_assoc.
Qed.

Lemma first_failure_is_reported_witness :
  snap (snd (fetchFresh Dom.textContent
               (quietEnv (unavailableAt 1 (fullSource 130))) 130 mount)) =
    {| questions := []; loading := false;
       error := Some "HTTP error! status: 503" |}.
Proof.
  refine (proj1 (first_failure_is_reported Dom.textContent
            (quietEnv (unavailableAt 1 (fullSource 130))) 130 mount 1
            "HTTP error! status: 503" _ _ _ _)).
  - vm_compute. lia.
  - intros j Hj. assert (j = O) as -> by lia.
    eexists _, _. repeat split; reflexivity.
  - vm_compute. reflexivity.
  - reflexivity.
Defined.





(** X7.  A successful run without records stores the empty collection,
    and that entry is never served: the next run for the same total takes
    the network path again. *)
Theorem empty_result_is_refetched parseFromString env totalAmount w
    parseFromString' env' :
  succeeds parseFromString env totalAmount w ->
  let w1 := snd (fetchFresh parseFromString env totalAmount w) in
  questions (snap w1) = [] ->
  sessionStorage w1 !! CACHE_KEY totalAmount = Some (JsonArray []) /\
  fetchData parseFromString' env' totalAmount w1 =
    fetchFresh parseFromString' env' totalAmount w1.
Proof.
  intros Hsucc. simpl. intros Hnil.
  destruct (success_outcome _ _ _ _ Hsucc) as (_ & Hq & _ & _ & Hst & _).
  simpl in Hq, Hst. rewrite Hnil in Hq.
  assert (sessionStorage (snd (fetchFresh parseFromString env totalAmount w))
            !! CACHE_KEY totalAmount = Some (JsonArray [])) as Hlook
    by (rewrite Hst, <- Hq; apply lookup_insert_eq).
  split; [done |].
  unfold fetchData, readCache. unfold_js. by rewrite Hlook.
Qed.

Lemma empty_result_is_refetched_witness :
  fetchData Dom.textContent (quietEnv (fullSource 1)) 1
    (snd (fetchFresh Dom.textContent (quietEnv emptySource) 1 mount)) =
  fetchFresh Dom.textContent (quietEnv (fullSource 1)) 1
    (snd (fetchFresh Dom.textContent (quietEnv emptySource) 1 mount)).
Proof.
  refine (proj2 (empty_result_is_refetched Dom.textContent (quietEnv emptySource) 1
            mount Dom.textContent (quietEnv (fullSource 1)) _ _)).
  - vm_compute. reflexivity.
  - vm_compute. reflexivity.
Defined.


(** X8.  A run whose cancellation lands no later than the moment the
    body of the last request is in flight publishes no questions and
    writes nothing to the cache. *)
Theorem cancelled_before_last_body_discards parseFromString env totalAmount w (a : nat) :
  cancelAt env = Some a ->
  (a + 3 <= 6 * Z.to_nat (numRequests totalAmount))%nat ->
  clock w = O ->
  let w' := snd (fetchFresh parseFromString env totalAmount w) in
  questions (snap w') = questions (snap w) /\
  sessionStorage w' = sessionStorage w /\
  cacheWrites (trace w') = cacheWrites (trace w).
Proof.
  intros Hcancel Ha Hclock. simpl.
  destruct (tryBlock parseFromString env totalAmount (announced w))
    as [[[] | e] w1] eqn:H.
  - exfalso.
    apply tryBlock_Normal in H as (all & wl & Hloop & _).
    apply requestLoop_Normal_quiet in Hloop; [| lia | lia].
    rewrite announced_clock, Hclock, (aborted_by_at _ _ _ Hcancel) in Hloop.
    apply Nat.leb_gt in Hloop. lia.
  - rewrite (fetchFresh_after_failure _ _ _ _ _ _ H).
    apply tryBlock_Throw in H as (Hs & Hst & _ & evs & Htr & Hw).
    rewrite announced_trace in Htr.
    unfold finallyBlock. unfold_js.
    destruct e as [name message |]; simpl; repeat case_match; simpl;
      rewrite ?Hs, ?Hst, ?Htr; simpl; repeat split; try done.
    all: unfold cacheWrites in *; rewrite !omap_app, Hw; simpl;
      by rewrite !app_nil_r.
Qed.

Lemma cancelled_before_last_body_discards_witness :
  sessionStorage (snd
    (fetchFresh Dom.textContent (cancelledEnv (fullSource 80) 9) 80 mount)) =
  sessionStorage mount.
Proof.
  refine (proj1 (proj2 (cancelled_before_last_body_discards Dom.textContent
            (cancelledEnv (fullSource 80) 9) 80 mount 9 _ _ _))).
  - reflexivity.
  - vm_compute. lia.
  - reflexivity.
Defined.


(** X9.  The signal is not looked at after the last batch: when every
    request is accepted and cancellation lands after the last body has
    arrived, the run still writes the cache and publishes the questions,
    and leaves [loading = true]. *)
Theorem cancelled_after_last_body_still_caches parseFromString env totalAmount w :
  (1 <= Z.to_nat (numRequests totalAmount))%nat ->
  (forall j, (j < Z.to_nat (numRequests totalAmount))%nat -> accepted env j) ->
  quotaExceeded env = false ->
  cancelAt env = Some (6 * (Z.to_nat (numRequests totalAmount) - 1) + 4)%nat ->
  clock w = O ->
  let all := decodedBatches parseFromString env 0 (Z.to_nat (numRequests totalAmount)) in
  let w' := snd (fetchFresh parseFromString env totalAmount w) in
  sessionStorage w' !! CACHE_KEY totalAmount = Some (JsonArray all) /\
  snap w' = {| questions := all; loading := true; error := None |}.
Proof.
  intros Hn Hacc Hq Hcancel Hclock. simpl.
  remember (Z.to_nat (numRequests totalAmount)) as n eqn:Hndef.
  destruct n as [| m]; [lia |].
  replace (S m - 1)%nat with m in Hcancel by lia.
  set (w1 := advance (6 * m)
               (flat_map (fun j => [EvFetch (amountInThisRequest totalAmount j);
                                    EvDelay 5000]) (seq 0 m))
               (announced w)).
  assert (clock w1 = (6 * m)%nat) as Hc1
    by (unfold w1; simpl; rewrite Hclock; lia).
  assert ((Z.of_nat m <? numRequests totalAmount - 1) = false) as Hlast
    by (apply Z.ltb_ge; lia).
  assert (exists wl,
    requestLoop parseFromString env totalAmount (m + 1) 0 [] (announced w) =
      (Normal (decodedBatches parseFromString env 0 (m + 1)), wl) /\
    clock wl = (6 * m + 4)%nat) as (wl & Hloop & Hcl).
  { rewrite requestLoop_prefix.
    - fold w1. simpl Nat.add.
      rewrite requestLoop_step.
      + rewrite Hlast. simpl. unfold ret. eexists. split.
        * f_equal. by rewrite decodedBatches_app, decodedBatches_one.
        * simpl. rewrite Hclock. lia.
      + apply Hacc. lia.
      + rewrite (aborted_by_at _ _ _ Hcancel), Hc1. apply Nat.leb_gt. lia.
      + rewrite Hlast. done.
    - intros j Hj. split; [apply Hacc; lia | lia].
    - intros c Hc. rewrite announced_clock, Hclock in Hc.
      rewrite (aborted_by_at _ _ _ Hcancel). apply Nat.leb_gt. lia. }
  replace (m + 1)%nat with (S m) in Hloop by lia.
  assert (tryBlock parseFromString env totalAmount (announced w) =
            (Normal tt,
             snd ((setItem env (CACHE_KEY totalAmount)
                     (JSON_stringify (decodedBatches parseFromString env 0 (S m))) ;;
                   setQuestions (decodedBatches parseFromString env 0 (S m))) wl))) as H.
  { unfold tryBlock, bind. rewrite <- Hndef, Hloop. unfold setItem. by rewrite Hq. }
  rewrite (fetchFresh_after_success _ _ _ _ _ H).
  apply requestLoop_frame in Hloop as (Hs & Hst & _).
  rewrite finallyBlock_aborted.
  - unfold bind, setItem. rewrite Hq. simpl. rewrite Hs, Hst. simpl.
    split; [apply lookup_insert_eq | done].
  - unfold bind, setItem. rewrite Hq. simpl.
    rewrite (aborted_by_at _ _ _ Hcancel), Hcl. apply Nat.leb_le. lia.
Qed.

Lemma cancelled_after_last_body_still_caches_witness :
  loading (snap (snd
    (fetchFresh Dom.textContent (cancelledEnv (fullSource 80) 10) 80 mount))) = true.
Proof.
  refine (f_equal loading (proj2 (cancelled_after_last_body_still_caches
            Dom.textContent (cancelledEnv (fullSource 80) 10) 80 mount _ _ _ _ _))).
  - vm_compute. lia.
  - intros j Hj. assert (j = O \/ j = 1%nat) as [-> | ->] by (vm_compute in Hj; lia).
    + eexists _, _. repeat split; reflexivity.
    + eexists _, _. repeat split; reflexivity.
  - reflexivity.
  - vm_compute. reflexivity.
  - reflexivity.
Defined.


(* ===================================================================== *)
(** ** The category list *)
(* ===================================================================== *)

Lemma existsb_eqb_elem_of (x : string) (l : list string) :
  existsb (String.eqb x) l = true <-> x ∈ l.
Proof.
  rewrite existsb_exists. split.
  - intros (y & Hin & Heq). apply String.eqb_eq in Heq. subst.
    by apply list_elem_of_In.
  - intros Hin. exists x. split; [by apply list_elem_of_In | apply String.eqb_refl].
Qed.

Lemma Set_add_elem_of seen x y : y ∈ Set_add seen x <-> y ∈ seen \/ y = x.
Proof.
  unfold Set_add. destruct (existsb (String.eqb x) seen) eqn:H.
  - apply existsb_eqb_elem_of in H. split; [by left |]. by intros [? | ->].
  - rewrite elem_of_app, list_elem_of_singleton. done.
Qed.

Lemma Set_add_NoDup seen x : NoDup seen -> NoDup (Set_add seen x).
Proof.
  intros Hnd. unfold Set_add. destruct (existsb (String.eqb x) seen) eqn:H; [done |].
  apply NoDup_app. split; [done |]. split; [| apply NoDup_singleton].
  intros y Hy Hx. apply list_elem_of_singleton in Hx. subst.
  apply existsb_eqb_elem_of in Hy. congruence.
Qed.

Lemma foldl_Set_add xs : forall seen,
  (forall y, y ∈ foldl Set_add seen xs <-> y ∈ seen \/ y ∈ xs) /\
  (NoDup seen -> NoDup (foldl Set_add seen xs)).
Proof.
  induction xs as [| x xs IH]; intros seen; simpl.
  - split; [| done]. intros y. rewrite elem_of_nil. tauto.
  - destruct (IH (Set_add seen x)) as [Hel Hnd]. split.
    + intros y. rewrite Hel, Set_add_elem_of, elem_of_cons. tauto.
    + intros H. by apply Hnd, Set_add_NoDup.
Qed.

Lemma ascii_compare_refl a : Ascii.compare a a = Eq.
Proof. unfold Ascii.compare. apply N.compare_refl. Qed.

Lemma ascii_compare_lt_trans a b c :
  Ascii.compare a b = Lt -> Ascii.compare b c = Lt -> Ascii.compare a c = Lt.
Proof. unfold Ascii.compare. rewrite !N.compare_lt_iff. lia. Qed.

Lemma before_trans a : forall b c, before a b -> before b c -> before a c.
Proof.
  unfold before. induction a as [| x a IH]; intros [| y b] [| z c]; simpl; try done.
  destruct (Ascii.compare x y) eqn:Hxy; try done;
    destruct (Ascii.compare y z) eqn:Hyz; try done.
  - apply Ascii.compare_eq_iff in Hxy, Hyz. subst. rewrite ascii_compare_refl.
    apply IH.
  - apply Ascii.compare_eq_iff in Hxy. subst. by rewrite Hyz.
  - apply Ascii.compare_eq_iff in Hyz. subst. by rewrite Hxy.
  - by rewrite (ascii_compare_lt_trans _ _ _ Hxy Hyz).
Qed.

Lemma string_compare_refl a : String.compare a a = Eq.
Proof.
  induction a as [| x a IH]; simpl; [done |]. by rewrite ascii_compare_refl.
Qed.

Lemma before_irrefl a : ~ before a a.
Proof. unfold before. by rewrite string_compare_refl. Qed.

Lemma leb_before a b : String.leb a b = true <-> before a b \/ a = b.
Proof.
  unfold String.leb, before. destruct (String.compare a b) eqn:H.
  - apply String.compare_eq_iff in H. tauto.
  - tauto.
  - split; [done |]. intros [? | ->]; [done |].
    by rewrite string_compare_refl in H.
Qed.

Lemma not_leb_before a b : String.leb a b = false -> before b a.
Proof.
  unfold String.leb, before. rewrite (String.compare_antisym b a).
  by destruct (String.compare a b).
Qed.

Lemma sort_insert_elem_of x l y : y ∈ sort_insert x l <-> y = x \/ y ∈ l.
Proof.
  induction l as [| z l IH]; simpl.
  - rewrite list_elem_of_singleton, elem_of_nil. tauto.
  - destruct (String.leb x z); rewrite !elem_of_cons, ?IH; tauto.
Qed.

Lemma Array_sort_elem_of l y : y ∈ Array_sort l <-> y ∈ l.
Proof.
  induction l as [| x l IH]; simpl; [done |].
  rewrite sort_insert_elem_of, elem_of_cons, IH. done.
Qed.

Lemma sort_insert_sorted x l :
  x ∉ l -> StronglySorted before l -> StronglySorted before (sort_insert x l).
Proof.
  induction l as [| z l IH]; intros Hx Hs; simpl.
  - repeat constructor.
  - apply not_elem_of_cons in Hx as [Hxz Hxl].
    apply StronglySorted_inv in Hs as [Hs Hz].
    destruct (String.leb x z) eqn:Hle.
    + apply leb_before in Hle as [Hlt | ->]; [| done].
      constructor; [by constructor |].
      constructor; [done |].
      eapply Forall_impl; [exact Hz |]. intros y. by apply before_trans.
    + constructor; [by apply IH |].
      apply Forall_forall. intros y Hy. apply sort_insert_elem_of in Hy as [-> | Hy].
      * by apply not_leb_before.
      * by eapply Forall_forall in Hz.
Qed.

Lemma Array_sort_sorted l : NoDup l -> StronglySorted before (Array_sort l).
Proof.
  induction l as [| x l IH]; intros Hnd; simpl; [constructor |].
  apply NoDup_cons in Hnd as [Hx Hnd].
  apply sort_insert_sorted; [| by apply IH].
  by rewrite Array_sort_elem_of.
Qed.

Lemma categories_spec (questions : list ApiResult) :
  exists rest,
    categories questions = "All" :: rest /\
    StronglySorted before rest /\
    NoDup rest /\
    forall c, c ∈ rest <-> exists q, q ∈ questions /\ category q = c.
Proof.
  eexists. split; [reflexivity |].
  destruct (foldl_Set_add (map category questions) []) as [Hel Hnd].
  split; [| split].
  - apply Array_sort_sorted, Hnd, NoDup_nil_2.
  - assert (StronglySorted before (Array_sort (Array_from_Set (map category questions))))
      as Hs by (apply Array_sort_sorted, Hnd, NoDup_nil_2).
    revert Hs. generalize (Array_sort (Array_from_Set (map category questions))).
    induction l as [| x l IH]; intros Hs; [constructor |].
    apply StronglySorted_inv in Hs as [Hs Hx]. constructor; [| by apply IH].
    intros Hin. eapply Forall_forall in Hx; [| exact Hin].
    by apply before_irrefl in Hx.
  - intros c. rewrite Array_sort_elem_of. unfold Array_from_Set.
    rewrite Hel, elem_of_nil, list_elem_of_fmap. split.
    + intros [[] | (q & -> & Hq)]. eauto.
    + intros (q & Hq & <-). right. eauto.
Qed.

(** X10.  The category list is ["All"] followed by the categories of
    the questions, each once, in strictly ascending order. *)
Theorem categories_sorted_unique (questions : list ApiResult) :
  exists rest,
    categories questions = "All" :: rest /\
    StronglySorted before rest /\
    NoDup rest /\
    forall c, c ∈ rest <-> exists q, q ∈ questions /\ category q = c.
Proof. apply categories_spec. Qed.


(* ===================================================================== *)
(** ** The dashboard *)
(* ===================================================================== *)






Lemma filter_length_cons (qs : list ApiResult) q c :
  length (List.filter (fun q => String.eqb (category q) c) (q :: qs)) =
  ((if String.eqb (category q) c then 1 else 0)
   + length (List.filter (fun q => String.eqb (category q) c) qs))%nat.
Proof. simpl. by destruct (String.eqb (category q) c). Qed.

Lemma sum_indicator (cats : list string) x :
  NoDup cats -> x ∈ cats ->
  sum_list (map (fun c => if String.eqb x c then 1 else 0)%nat cats) = 1%nat.
Proof.
  induction cats as [| c cats IH]; intros Hnd Hx; [by apply elem_of_nil in Hx |].
  apply NoDup_cons in Hnd as [Hc Hnd]. simpl.
  destruct (String.eqb_spec x c) as [-> | Hne].
  - assert (sum_list (map (fun c' => if String.eqb c c' then 1 else 0)%nat cats) = 0%nat)
      as ->; [| done].
    clear IH Hx Hnd. induction cats as [| c' cats IH]; [done |].
    apply not_elem_of_cons in Hc as [Hne Hc]. simpl.
    destruct (String.eqb_spec c c'); [done |]. by rewrite IH.
  - apply elem_of_cons in Hx as [-> | Hx]; [done |]. by rewrite IH.
Qed.

Lemma filter_lengths_partition (cats : list string) (qs : list ApiResult) :
  NoDup cats ->
  (forall q, q ∈ qs -> category q ∈ cats) ->
  sum_list (map (fun c =>
     length (List.filter (fun q => String.eqb (category q) c) qs)) cats) =
  length qs.
Proof.
  intros Hnd. induction qs as [| q qs IH]; intros Hall.
  - simpl. clear. induction cats as [| c cats IHc]; [done | done].
  - rewrite (map_ext _ (fun c =>
       ((if String.eqb (category q) c then 1 else 0)
        + length (List.filter (fun q => String.eqb (category q) c) qs))%nat))
      by (intros c; apply filter_length_cons).
    assert (forall (f g : string -> nat) l,
      sum_list (map (fun c => (f c + g c)%nat) l) =
      (sum_list (map f l) + sum_list (map g l))%nat) as Hsplit.
    { intros f g l. induction l as [| c l IHl]; simpl; [done |]. rewrite IHl. lia. }
    rewrite Hsplit, IH, sum_indicator; [done | done | |].
    + apply Hall, list_elem_of_here.
    + intros q' Hq'. apply Hall. by apply list_elem_of_further.
Qed.

(** X12.  When no question has the category ["All"], the filters of the
    category list partition the questions: their sizes add up to the
    number of questions. *)
Theorem category_filters_partition (questions : list ApiResult) :
  (forall q, q ∈ questions -> category q <> "All") ->
  sum_list (map (fun c => length (App.filteredQuestions questions c))
                (tail (categories questions))) =
  length questions.
Proof.
  intros Hall.
  destruct (categories_spec questions) as (rest & Hcat & _ & Hnd & Hel).
  rewrite Hcat. simpl tail.
  rewrite <- (filter_lengths_partition rest questions Hnd).
  - f_equal. apply map_ext_in. intros c Hc. unfold App.filteredQuestions.
    destruct (String.eqb_spec c "All") as [-> | _]; [| done].
    apply list_elem_of_In, Hel in Hc as (q & Hq & Heq). by apply Hall in Hq.
  - intros q Hq. apply Hel. eauto.
Qed.

Lemma category_filters_partition_witness :
  sum_list (map (fun c => length (App.filteredQuestions sampleQuestions c))
                (tail (categories sampleQuestions))) = 3%nat.
Proof.
  apply (category_filters_partition sampleQuestions).
  apply Forall_forall. repeat constructor; discriminate.
Defined.


Lemma or0_id x : App.or0 x = x.
Proof. unfold App.or0. by destruct (Z.eqb_spec x 0). Qed.

Lemma counts_total (qs : list ApiResult) : forall acc,
  let counts := foldl App.countDifficulty acc qs in
  counts easy + counts medium + counts hard =
    acc easy + acc medium + acc hard + Z.of_nat (length qs) /\
  forall d, acc d <= counts d.
Proof.
  induction qs as [| q qs IH]; intros acc; simpl.
  - split; [lia | intros d; lia].
  - destruct (IH (App.countDifficulty acc q)) as [Hsum Hmono]. simpl in Hsum, Hmono.
    split.
    + rewrite Hsum. unfold App.countDifficulty. rewrite !or0_id.
      destruct (difficulty q); simpl; lia.
    + intros d. specialize (Hmono d).
      assert (acc d <= App.countDifficulty acc q d) as Hstep.
      { unfold App.countDifficulty. rewrite or0_id.
        destruct (App.difficulty_eqb d (difficulty q)); lia. }
      lia.
Qed.

Lemma counts_exact (qs : list ApiResult) d : forall acc,
  foldl App.countDifficulty acc qs d =
    acc d + Z.of_nat (length (List.filter
                        (fun q => App.difficulty_eqb d (difficulty q)) qs)).
Proof.
  induction qs as [| q qs IH]; intros acc; simpl; [lia |].
  rewrite IH. unfold App.countDifficulty. rewrite or0_id.
  destruct (App.difficulty_eqb d (difficulty q)); simpl; lia.
Qed.

(** X13.  The difficulty chart: the counts add up to the number of
    questions shown, every entry has a positive count, each entry carries
    the number of questions of its difficulty, the entries come in the
    order Easy, Medium, Hard, and there is no entry exactly when no
    question is shown. *)
Theorem difficulty_distribution_counts (shown : list ApiResult) :
  let dist := App.difficultyDistribution shown in
  let number d :=
    Z.of_nat (length (List.filter
                        (fun q => App.difficulty_eqb d (difficulty q)) shown)) in
  sumZ (map App.count dist) = Z.of_nat (length shown) /\
  Forall (fun e => 0 < App.count e) dist /\
  Forall (fun e =>
            (App.name e = "Easy" /\ App.count e = number easy) \/
            (App.name e = "Medium" /\ App.count e = number medium) \/
            (App.name e = "Hard" /\ App.count e = number hard)) dist /\
  map App.name dist `sublist_of` ["Easy"; "Medium"; "Hard"] /\
  (dist = [] <-> shown = []).
Proof.
  simpl. unfold App.difficultyDistribution.
  destruct (counts_total shown (fun _ => 0)) as [Hsum Hmono]. simpl in Hsum, Hmono.
  pose proof (Hmono easy) as He. pose proof (Hmono medium) as Hm.
  pose proof (Hmono hard) as Hh.
  pose proof (counts_exact shown easy (fun _ => 0)) as Hce.
  pose proof (counts_exact shown medium (fun _ => 0)) as Hcm.
  pose proof (counts_exact shown hard (fun _ => 0)) as Hch.
  simpl in Hce, Hcm, Hch.
  set (counts := foldl App.countDifficulty (fun _ => 0) shown) in *.
  simpl.
  destruct (Z.ltb_spec 0 (counts easy)), (Z.ltb_spec 0 (counts medium)),
    (Z.ltb_spec 0 (counts hard)); simpl.
  all: split; [lia |]. all: split; [repeat constructor; done |].
  all: split; [repeat constructor; simpl; tauto |].
  all: split; [repeat first [apply sublist_nil | apply sublist_skip | apply sublist_cons] |].
  all: split; intros Hnil; try discriminate.
  all: try (subst shown; simpl in *; unfold counts in *; simpl in *; lia).
  all: destruct shown; [done | simpl in Hsum; lia].
Qed.

(** X14.  What [App] shows after a run of the network path that is never
    cancelled: never the spinner; after a success the dashboard over the
    decoded batches; after a failure the alert with the failure's message,
    unless that message is empty, when the dashboard over the earlier
    questions is shown. *)
Theorem settled_run_is_rendered parseFromString env totalAmount w :
  cancelAt env = None ->
  let s := snap (snd (fetchFresh parseFromString env totalAmount w)) in
  App.render s <> App.Spinner /\
  (succeeds parseFromString env totalAmount w ->
   let all := decodedBatches parseFromString env 0
                (Z.to_nat (numRequests totalAmount)) in
   App.render s = App.Dashboard all (categories all)) /\
  (forall e w1,
     tryBlock parseFromString env totalAmount (announced w) = (Throw e, w1) ->
     App.render s =
       if String.eqb (reported e) EmptyString
       then App.Dashboard (questions (snap w)) (categories (questions (snap w)))
       else App.ErrorAlert (reported e)).
Proof.
  intros Hnever. simpl.
  pose proof (fetchFresh_frame parseFromString env totalAmount w) as (_ & _ & Hl).
  simpl in Hl. specialize (Hl Hnever).
  split; [| split].
  - unfold App.render. rewrite Hl. by repeat case_match.
  - intros Hsucc.
    destruct (success_outcome _ _ _ _ Hsucc) as (_ & Hq & He & _). simpl in Hq, He.
    unfold App.render. by rewrite Hl, He, Hq.
  - intros e w1 H.
    assert (isAbort e = false) as Hab.
    { destruct (isAbort e) eqn:Hab; [| done].
      apply tryBlock_Throw in H as (_ & _ & Habort & _).
      specialize (Habort Hab). by rewrite aborted_by_never in Habort. }
    destruct (failure_outcome _ _ _ _ _ _ H Hab (aborted_by_never _ _ Hnever))
      as [Hs _].
    simpl in Hs. rewrite Hs. done.
Qed.

Lemma settled_run_is_rendered_witness :
  App.render (snap (snd
    (fetchFresh Dom.textContent (quietEnv rejectingSource) 80 mount))) <> App.Spinner.
Proof.
  refine (proj1 (settled_run_is_rendered Dom.textContent (quietEnv rejectingSource)
            80 mount _)).
  reflexivity.
Defined.
